(** * Completion tracking for a fan-out/fan-in page queue

    A shallow embedding of [src/index.ts]: the Durable Object that tracks the
    finished pages of a document ([MyDurableObject]), the HTTP handlers
    [/send_to_queue] and [/status], and the queue consumer [queue].

    Conventions of the embedding.
    - JavaScript numbers that the program uses as counts and page numbers are
      integers of [Z]. [parseInt] rounds its result to the nearest double;
      a result of magnitude 2^1024 or more, which JavaScript reads as
      [Infinity], is outside the model.
    - A [Set<number>] is a [gset Z]; a storage key that was never written
      ([storage.get] yields [undefined]) is [None].
    - The Durable Object namespace is a finite map from the object's name to
      its storage; an object that was never touched has the empty storage.
    - Every Durable Object method is one atomic step on that storage (the
      runtime delivers no other event to an object while it waits for its own
      storage operations).
    - [Math.random] and [Date.now] are inputs: random identifiers are
      arguments, and the k-th evaluation of [Date.now()] returns [clock k].
    - The queue is an external service: [send] and [sendBatch] append what is
      submitted to the channel's log, and [sendBatch] refuses, by throwing, a
      batch of more than 100 messages. *)

From Stdlib Require Import ZArith Ascii String.
From stdpp Require Import gmap strings list fin_maps.

Local Open Scope Z_scope.

(** ** Messages *)

(** [type: 'page' | 'end'] *)
Inductive MessageType := TPage | TEnd.

Global Instance MessageType_eq_dec : EqDecision MessageType.
Proof. solve_decision. Defined.

(** [QueueMessage]; the optional fields are [None] when absent. *)
Record QueueMessage := {
  type : MessageType;
  start_time : Z;
  document_id : string;
  page : option Z;
  total_pages : option Z;
}.

Global Instance QueueMessage_eq_dec : EqDecision QueueMessage.
Proof. solve_decision. Defined.

(** What the program hands to the queue: [sendBatch(messages)] or
    [send(message)]. *)
Inductive Submission :=
  | SendBatch (messages : list QueueMessage)
  | Send (message : QueueMessage).

Definition submitted (s : Submission) : list QueueMessage :=
  match s with
  | SendBatch ms => ms
  | Send m => [m]
  end.

(** ** JavaScript helpers *)

(** [x || d] for a number read from storage: [undefined] and [0] are falsy. *)
Definition number_or (x : option Z) (d : Z) : Z :=
  match x with
  | Some n => if n =? 0 then d else n
  | None => d
  end.

(** [if (x)] for an optional number. *)
Definition truthy (x : option Z) : bool :=
  match x with
  | Some n => negb (n =? 0)
  | None => false
  end.

(** ** The Durable Object *)

(** The two keys of [ctx.storage]. *)
Record Storage := {
  amount_of_pages : option Z;
  finished_pages : option (gset Z);
}.

Definition empty_storage : Storage :=
  {| amount_of_pages := None; finished_pages := None |}.

Module MyDurableObject.

Definition set_amount_of_pages (amount : Z) (st : Storage) : Storage :=
  {| amount_of_pages := Some amount; finished_pages := finished_pages st |}.

Definition get_finished_pages (st : Storage) : gset Z :=
  default ∅ (finished_pages st).

Definition finished_page (page_num : Z) (st : Storage) : Storage :=
  let finished := default ∅ (finished_pages st) in
  {| amount_of_pages := amount_of_pages st;
     finished_pages := Some (finished ∪ {[page_num]}) |}.

Definition is_finished (st : Storage) : bool :=
  let finished := default ∅ (finished_pages st) in
  let amount := number_or (amount_of_pages st) 0 in
  bool_decide (Z.of_nat (size finished) = amount).

(** [storage.deleteAll()] *)
Definition delete (st : Storage) : Storage := empty_storage.

End MyDurableObject.

(** ** The world the handlers run in *)

Record World := {
  objects : gmap string Storage;     (* MY_DURABLE_OBJECT, by name *)
  channel : list Submission;         (* what MY_QUEUE was given, oldest first *)
  date_reads : nat;                  (* evaluations of Date.now() so far *)
}.

Definition empty_world : World :=
  {| objects := ∅; channel := []; date_reads := 0 |}.

(** [env.MY_DURABLE_OBJECT.get(idFromName(d))] *)
Definition storage_of (w : World) (d : string) : Storage :=
  default empty_storage (objects w !! d).

Definition call (d : string) (f : Storage → Storage) (w : World) : World :=
  {| objects := <[d := f (storage_of w d)]> (objects w);
     channel := channel w;
     date_reads := date_reads w |}.

Definition submit (s : Submission) (w : World) : World :=
  {| objects := objects w;
     channel := channel w ++ [s];
     date_reads := date_reads w |}.

Definition tick (n : nat) (w : World) : World :=
  {| objects := objects w;
     channel := channel w;
     date_reads := (date_reads w + n)%nat |}.

(** The messages a consumer can be handed: everything ever submitted. *)
Definition in_channel (m : QueueMessage) (w : World) : Prop :=
  ∃ s, s ∈ channel w ∧ m ∈ submitted s.

(** ** [parseInt] *)

(** White space that [parseInt] skips, among code units below 256. *)
Definition is_white_space (c : ascii) : bool :=
  let n := nat_of_ascii c in
  bool_decide (n = 9 ∨ n = 10 ∨ n = 11 ∨ n = 12 ∨ n = 13 ∨ n = 32 ∨ n = 160)%nat.

Fixpoint trim_start (s : string) : string :=
  match s with
  | String c s' => if is_white_space c then trim_start s' else s
  | EmptyString => s
  end.

Definition digit_value (c : ascii) : option Z :=
  let n := Z.of_nat (nat_of_ascii c) in
  if (48 <=? n) && (n <=? 57) then Some (n - 48)
  else if (97 <=? n) && (n <=? 122) then Some (n - 87)
  else if (65 <=? n) && (n <=? 90) then Some (n - 55)
  else None.

(** The longest prefix of digits of radix [R], as an integer; [acc] is [None]
    until a digit has been read. *)
Fixpoint parse_digits (R : Z) (s : string) (acc : option Z) : option Z :=
  match s with
  | String c s' =>
      match digit_value c with
      | Some v => if v <? R then parse_digits R s' (Some (default 0 acc * R + v)) else acc
      | None => acc
      end
  | EmptyString => acc
  end.

(** The double nearest to the integer [n], ties to the even mantissa: an
    integer of magnitude up to 2^53 is a double; a larger one keeps its 53
    leading bits, rounded. *)
Definition to_double (n : Z) : Z :=
  let a := Z.abs n in
  if a <=? 2 ^ 53 then n
  else
    let e := Z.log2 a - 52 in
    let q := Z.shiftr a e in
    let rest := Z.land a (Z.ones e) in
    let half := Z.shiftl 1 (e - 1) in
    let q' :=
      if rest <? half then q
      else if half <? rest then q + 1
      else if Z.even q then q else q + 1 in
    Z.sgn n * Z.shiftl q' e.

(** [parseInt(s)] without a radix; [None] is [NaN]. *)
Definition parseInt (s : string) : option Z :=
  let s1 := trim_start s in
  let '(sign, s2) :=
    match s1 with
    | String "-"%char r => (-1, r)
    | String "+"%char r => (1, r)
    | _ => (1, s1)
    end in
  let '(R, s3) :=
    match s2 with
    | String "0"%char (String "x"%char r) => (16, r)
    | String "0"%char (String "X"%char r) => (16, r)
    | _ => (10, s2)
    end in
  match parse_digits R s3 None with
  | Some n => Some (to_double (sign * n))
  | None => None
  end.

(** ** Effects *)

(** What the program does to the outside, in the order it does it. *)
Inductive Delay :=
  | FixedDelay (ms : Z)           (* DELAY_PER_QUEUE_EXECUTION *)
  | RandomDelay (max_ms : Z).     (* Math.random() * DELAY_PER_QUEUE_EXECUTION *)

Inductive Event :=
  | EvSetAmount (document : string) (amount : Z)
  | EvFinishedPage (document : string) (page_num : Z)
  | EvIsFinished (document : string) (result : bool)
  | EvGetFinishedPages (document : string)
  | EvDelete (document : string)
  | EvSubmit (s : Submission)
  | EvSleep (d : Delay)
  | EvLogPage (execution document : string) (page total : option Z)
  | EvLogEnd (execution document : string) (duration : Z).

Global Instance Delay_eq_dec : EqDecision Delay.
Proof. solve_decision. Defined.
Global Instance Submission_eq_dec : EqDecision Submission.
Proof. solve_decision. Defined.
Global Instance Event_eq_dec : EqDecision Event.
Proof. solve_decision. Defined.

Inductive Error :=
  | RangeError        (* [Array.from]: invalid array length *)
  | QueueSendError.   (* [sendBatch]: the batch exceeds the limit *)

Inductive Outcome (A : Type) :=
  | Ok (a : A)
  | Throw (e : Error).
Arguments Ok {A} a.
Arguments Throw {A} e.

(** The world of a handler, with the trace of its effects. *)
Record Run := {
  world : World;
  history : list Event;
}.

(** An [async] computation: it threads the world, records its effects and
    either returns or throws. *)
Definition M (A : Type) : Type := Run → Outcome A * Run.

Global Instance M_ret : MRet M := λ A a r, (Ok a, r).
Global Instance M_bind : MBind M := λ A B f m r,
  match m r with
  | (Ok a, r') => f a r'
  | (Throw e, r') => (Throw e, r')
  end.

Definition throw {A} (e : Error) : M A := λ r, (Throw e, r).

Definition emit (e : Event) : M unit :=
  λ r, (Ok tt, {| world := world r; history := history r ++ [e] |}).

Definition update (f : World → World) : M unit :=
  λ r, (Ok tt, {| world := f (world r); history := history r |}).

Definition read {A} (f : World → A) : M A := λ r, (Ok (f (world r)), r).

Fixpoint for_each {A} (f : A → M unit) (l : list A) : M unit :=
  match l with
  | [] => mret tt
  | x :: l' => f x ;; for_each f l'
  end.

Fixpoint map_each {A B} (f : A → M B) (l : list A) : M (list B) :=
  match l with
  | [] => mret []
  | x :: l' => y ← f x; ys ← map_each f l'; mret (y :: ys)
  end.

(** [Array.from({ length }, (_, i) => f i)]: the length is clamped by
    [ToLength]; the constructor refuses a length of 2^32 or more. *)
Definition ToLength (n : Z) : Z :=
  if n <=? 0 then 0 else Z.min n (2 ^ 53 - 1).

Definition array_from {A} (length : Z) (f : nat → M A) : M (list A) :=
  let len := ToLength length in
  if 2 ^ 32 <=? len then throw RangeError
  else map_each f (seq 0 (Z.to_nat len)).

(** ** Stubs of the Durable Object and of the queue *)

Module stub.
Import MyDurableObject.

Definition set_amount_of_pages (d : string) (amount : Z) : M unit :=
  emit (EvSetAmount d amount) ;;
  update (call d (set_amount_of_pages amount)).

Definition finished_page (d : string) (page_num : Z) : M unit :=
  emit (EvFinishedPage d page_num) ;;
  update (call d (finished_page page_num)).

Definition is_finished (d : string) : M bool :=
  b ← read (λ w, is_finished (storage_of w d));
  emit (EvIsFinished d b) ;;
  mret b.

Definition get_finished_pages (d : string) : M (gset Z) :=
  emit (EvGetFinishedPages d) ;;
  read (λ w, get_finished_pages (storage_of w d)).

Definition delete (d : string) : M unit :=
  emit (EvDelete d) ;;
  update (call d delete).

End stub.

Module MY_QUEUE.

(** The most messages that the queue takes in one batch. *)
Definition batch_limit : nat := 100.

Definition sendBatch (messages : list QueueMessage) : M unit :=
  if (batch_limit <? length messages)%nat then throw QueueSendError
  else
    emit (EvSubmit (SendBatch messages)) ;;
    update (submit (SendBatch messages)).

Definition send (m : QueueMessage) : M unit :=
  emit (EvSubmit (Send m)) ;;
  update (submit (Send m)).

End MY_QUEUE.

(** ** The handlers *)

Record Env := {
  DELAY_PER_QUEUE_EXECUTION : Z;
  RANDOMIZE_TO_MAX : bool;
}.

(** The body of a response. The array of [Json] lists the set in the order of
    [elements]; the insertion order of a JavaScript [Set] is not modelled. *)
Inductive Response :=
  | Text (document : string) (amount : Z)
      (* `Document: ${document}. Sent ${amount} messages to the queue!` *)
  | Json (finished : bool) (finished_pages : list Z).

Definition defaultAmount : Z := 100.
Definition defaultAmount_toString : string := "100".

(** [s || d] on strings: [undefined] and the empty string are falsy. *)
Definition string_or (s : option string) (d : string) : string :=
  match s with
  | Some EmptyString | None => d
  | Some s => s
  end.

(** [parseInt(c.req.query('amount') || defaultAmount.toString()) || defaultAmount] *)
Definition requested_amount (query_amount : option string) : Z :=
  number_or (parseInt (string_or query_amount defaultAmount_toString)) defaultAmount.

Section Handlers.

(** The k-th evaluation of [Date.now()] returns [clock k]. *)
Variable clock : nat → Z.

Definition date_now : M Z :=
  now ← read (λ w, clock (date_reads w));
  update (tick 1) ;;
  mret now.

Definition page_message (now : Z) (document : string) (amount : Z) (i : nat)
  : QueueMessage :=
  {| type := TPage;
     start_time := now;
     document_id := document;
     page := Some (Z.of_nat i + 1);
     total_pages := Some amount |}.

(** The handler of [/send_to_queue] once [amount] is known. *)
Definition dispatch (amount : Z) (document : string) : M Response :=
  stub.set_amount_of_pages document amount ;;
  messages ← array_from amount
    (λ i, now ← date_now; mret (page_message now document amount i));
  MY_QUEUE.sendBatch messages ;;
  mret (Text document amount).

(** [app.get('/send_to_queue')]; [document] is the random identifier. *)
Definition send_to_queue (query_amount : option string) (document : string)
  : M Response :=
  let amount := requested_amount query_amount in
  dispatch amount document.

(** [app.get('/status')] *)
Definition status (query_document_id : option string) : M Response :=
  let document := string_or query_document_id "" in
  finished ← stub.is_finished document;
  pages ← stub.get_finished_pages document;
  mret (Json finished (elements pages)).

Definition delay_amount (env : Env) : Delay :=
  if RANDOMIZE_TO_MAX env then RandomDelay (DELAY_PER_QUEUE_EXECUTION env)
  else FixedDelay (DELAY_PER_QUEUE_EXECUTION env).

Definition end_message (m : QueueMessage) : QueueMessage :=
  {| type := TEnd;
     start_time := start_time m;
     document_id := document_id m;
     page := None;
     total_pages := None |}.

(** The body of the [for] loop of [queue]. *)
Definition on_message (env : Env) (execution : string) (m : QueueMessage)
  : M unit :=
  match type m with
  | TEnd =>
      now ← date_now;
      emit (EvLogEnd execution (document_id m) (now - start_time m))
  | TPage =>
      emit (EvSleep (delay_amount env)) ;;
      emit (EvLogPage execution (document_id m) (page m) (total_pages m)) ;;
      if truthy (page m) then
        let p := default 0 (page m) in
        stub.finished_page (document_id m) p ;;
        finished ← stub.is_finished (document_id m);
        if finished : bool then
          MY_QUEUE.send (end_message m) ;;
          stub.delete (document_id m)
        else mret tt
      else mret tt
  end.

(** [queue(batch, env)]; [execution] is [execution_random_id]. *)
Definition queue (env : Env) (execution : string) (batch : list QueueMessage)
  : M unit :=
  for_each (on_message env execution) batch.

End Handlers.

(** Sequential consumption of several deliveries, each with the random
    identifier of its [queue] invocation. *)
Definition consume (clock : nat → Z) (env : Env)
  (deliveries : list (string * list QueueMessage)) : M unit :=
  for_each (λ d, queue clock env d.1 d.2) deliveries.

(** ** Concurrent workers *)

(** A consumer that handles one item, cut at its [await]s: each step is one
    call to the object or to the queue, and steps of different consumers
    interleave freely. *)
Inductive Pc :=
  | AtStart                  (* before the delay and the log line *)
  | AtRecord                 (* before [stub.finished_page] *)
  | AtCheck                  (* before [stub.is_finished] *)
  | AtEmit                   (* the check succeeded; before [MY_QUEUE.send] *)
  | AtDestroy                (* before [stub.delete] *)
  | Finished (observed : bool).

Record Worker := {
  execution : string;
  item : QueueMessage;
  pc : Pc;
}.

Definition at_pc (wk : Worker) (c : Pc) : Worker :=
  {| execution := execution wk; item := item wk; pc := c |}.

(** The consumer was told that the job is complete. *)
Definition saw_completion (wk : Worker) : bool :=
  match pc wk with
  | AtEmit | AtDestroy | Finished true => true
  | _ => false
  end.

Definition is_done (wk : Worker) : bool :=
  match pc wk with
  | Finished _ => true
  | _ => false
  end.

Definition observers (ws : list Worker) : nat :=
  length (List.filter saw_completion ws).

Section Workers.
Variable clock : nat → Z.
Variable env : Env.

Definition worker_step (wk : Worker) : M Worker :=
  let m := item wk in
  match pc wk with
  | AtStart =>
      match type m with
      | TEnd =>
          now ← date_now clock;
          emit (EvLogEnd (execution wk) (document_id m) (now - start_time m)) ;;
          mret (at_pc wk (Finished false))
      | TPage =>
          emit (EvSleep (delay_amount env)) ;;
          emit (EvLogPage (execution wk) (document_id m) (page m) (total_pages m)) ;;
          mret (at_pc wk (if truthy (page m) then AtRecord else Finished false))
      end
  | AtRecord =>
      stub.finished_page (document_id m) (default 0 (page m)) ;;
      mret (at_pc wk AtCheck)
  | AtCheck =>
      finished ← stub.is_finished (document_id m);
      mret (at_pc wk (if finished : bool then AtEmit else Finished false))
  | AtEmit =>
      MY_QUEUE.send (end_message m) ;;
      mret (at_pc wk AtDestroy)
  | AtDestroy =>
      stub.delete (document_id m) ;;
      mret (at_pc wk (Finished true))
  | Finished _ => mret wk
  end.

(** Consumer [i] takes its next step. *)
Definition schedule_step (i : nat) (ws : list Worker) : M (list Worker) :=
  match ws !! i with
  | Some wk => wk' ← worker_step wk; mret (<[i := wk']> ws)
  | None => mret ws
  end.

Fixpoint run_schedule (schedule : list nat) (ws : list Worker)
  : M (list Worker) :=
  match schedule with
  | [] => mret ws
  | i :: schedule' =>
      ws' ← schedule_step i ws;
      run_schedule schedule' ws'
  end.

Fixpoint run_worker (steps : nat) (wk : Worker) : M Worker :=
  match steps with
  | O => mret wk
  | S steps' => wk' ← worker_step wk; run_worker steps' wk'
  end.

End Workers.

(** One consumer per page of the job of [N] pages of document [d]. *)
Definition workers_of (d : string) (N : Z) (now : Z) : list Worker :=
  (λ j, {| execution := "w"; item := page_message now d N j; pc := AtStart |})
    <$> seq 0 (Z.to_nat N).

(** ** Reachable job states *)

Section Reach.
Variable clock : nat → Z.
Variable env : Env.

(** The states of the job of document [d] dispatched with size [N]: the
    dispatch itself, on an identifier that was never used, then any number
    of deliveries of items taken from the channel (in any order, any number
    of times), dispatches of other documents and status queries. *)
Inductive reachable (d : string) (N : Z) : Run → Prop :=
  | reach_dispatch r :
      storage_of (world r) d = empty_storage →
      (∀ m, in_channel m (world r) → document_id m ≠ d) →
      reachable d N (dispatch clock N d r).2
  | reach_queue r ex batch :
      reachable d N r →
      (∀ m, m ∈ batch → in_channel m (world r)) →
      reachable d N (queue clock env ex batch r).2
  | reach_other r N' d' :
      reachable d N r → d' ≠ d →
      reachable d N (dispatch clock N' d' r).2
  | reach_status r q :
      reachable d N r →
      reachable d N (status q r).2.

End Reach.

(** * Vocabulary of the properties *)

(** ** Observations on a trace *)

Definition count_events (P : Event → bool) (tr : list Event) : nat :=
  length (List.filter P tr).

(** The completion check of document [d] succeeded. *)
Definition observes (d : string) (e : Event) : bool :=
  match e with
  | EvIsFinished d' true => bool_decide (d' = d)
  | _ => false
  end.

(** A terminal ['end'] item for document [d] was sent. *)
Definition terminal (d : string) (e : Event) : bool :=
  match e with
  | EvSubmit (Send m) => bool_decide (type m = TEnd ∧ document_id m = d)
  | _ => false
  end.

(** The state of document [d] was deleted. *)
Definition destroys (d : string) (e : Event) : bool :=
  match e with
  | EvDelete d' => bool_decide (d' = d)
  | _ => false
  end.

(** The page that [queue] records for document [d] on message [m], if any. *)
Definition recorded_by (d : string) (m : QueueMessage) : option Z :=
  if bool_decide (type m = TPage ∧ document_id m = d) && truthy (page m)
  then page m else None.

Definition pages_of (d : string) (batch : list QueueMessage) : gset Z :=
  list_to_set (omap (recorded_by d) batch).

(** What one recorded page does to the storage of its document, and whether
    the completion check succeeded. *)
Definition record_step (p : Z) (st : Storage) : Storage * bool :=
  let st1 := MyDurableObject.finished_page p st in
  if MyDurableObject.is_finished st1
  then (MyDurableObject.delete st1, true)
  else (st1, false).

(** What [queue] does on every item of kind ['page'] before it looks at the
    page number: the delay and the log line. *)
Definition page_effects (env : Env) (execution : string) (m : QueueMessage)
  : list Event :=
  [EvSleep (delay_amount env);
   EvLogPage execution (document_id m) (page m) (total_pages m)].

(** The three faces of a completion on document [d] occur [n] times in [tr]:
    the successful check, the terminal item, the deletion. *)
Definition completions (d : string) (tr : list Event) (n : nat) : Prop :=
  count_events (observes d) tr = n ∧
  count_events (terminal d) tr = n ∧
  count_events (destroys d) tr = n.

(** ** Phases of a job *)

(** The job waits for pages: its size is stored and fewer pages are recorded. *)
Definition pending (N : Z) (st : Storage) : Prop :=
  amount_of_pages st = Some N ∧
  Z.of_nat (size (MyDurableObject.get_finished_pages st)) < N.

(** The job's size is not stored: never initialized, or deleted. *)
Definition gone (st : Storage) : Prop := amount_of_pages st = None.

(** How a run of deliveries leaves a job that was pending: still pending,
    with the delivered pages added and no completion, or gone after exactly
    one completion. *)
Definition progress (d : string) (N : Z) (st st' : Storage)
  (pages : gset Z) (tr : list Event) : Prop :=
  (pending N st' ∧
   MyDurableObject.get_finished_pages st' =
     MyDurableObject.get_finished_pages st ∪ pages ∧
   completions d tr 0)
  ∨ (gone st' ∧ completions d tr 1).

(** Every message of every delivery. *)
Definition delivered (deliveries : list (string * list QueueMessage))
  : list QueueMessage :=
  concat (deliveries.*2).

(** A job as [/send_to_queue] leaves it: the size stored, nothing recorded. *)
Definition initialized (N : Z) : Storage :=
  MyDurableObject.set_amount_of_pages N empty_storage.

(** ** Order of the effects of a completion *)

(** In a trace, every successful completion check is followed at once by the
    submission of the terminal item of that document and then by the deletion
    of its state, and no deletion happens anywhere else. *)
Definition emit_then_destroy (tr : list Event) : Prop :=
  (∀ i d, tr !! i = Some (EvIsFinished d true) →
     ∃ m, tr !! S i = Some (EvSubmit (Send m)) ∧
          type m = TEnd ∧ document_id m = d ∧
          tr !! S (S i) = Some (EvDelete d))
  ∧
  (∀ i d, tr !! i = Some (EvDelete d) →
     ∃ j m, i = S j ∧ tr !! j = Some (EvSubmit (Send m)) ∧
            type m = TEnd ∧ document_id m = d).

(** ** Dispatch *)

(** The items that [Array.from] builds when [k] readings of the clock were
    taken before. *)
Definition built_messages (clock : nat → Z) (k : nat) (d : string) (N : Z)
  : list QueueMessage :=
  (λ j, page_message (clock (k + j)%nat) d N j) <$> seq 0 (Z.to_nat (ToLength N)).

(** What C9 says of [dispatch]: it returns the identifier, stores the size
    and submits one batch of [N] page items numbered [1..N], all with the
    same total, identifier and start time. *)
Definition dispatch_as_specified (clock : nat → Z) (N : Z) (d : string)
  (r : Run) : Prop :=
  ∃ r' now messages,
    dispatch clock N d r = (Ok (Text d N), r') ∧
    amount_of_pages (storage_of (world r') d) = Some N ∧
    channel (world r') = channel (world r) ++ [SendBatch messages] ∧
    Z.of_nat (length messages) = N ∧
    page <$> messages = Some <$> seqZ 1 N ∧
    ∀ m, m ∈ messages →
      type m = TPage ∧ total_pages m = Some N ∧
      document_id m = d ∧ start_time m = now.

(** What C4 says of a request: the job gets the default size, and one
    hundred page items are submitted. *)
Definition falls_back_to_default (clock : nat → Z) (s : string) (d : string)
  (r : Run) : Prop :=
  ∃ r' messages,
    send_to_queue clock (Some s) d r = (Ok (Text d defaultAmount), r') ∧
    amount_of_pages (storage_of (world r') d) = Some defaultAmount ∧
    channel (world r') = channel (world r) ++ [SendBatch messages] ∧
    length messages = 100%nat ∧
    ∀ m, m ∈ messages → type m = TPage.

(** ** Bounds on the finished pages *)

(** The finished pages of document [d] lie in [1..N] and are at most [N]. *)
Definition pages_within (d : string) (N : Z) (r : Run) : Prop :=
  let finished := MyDurableObject.get_finished_pages (storage_of (world r) d) in
  (∀ p, p ∈ finished → 1 ≤ p ≤ N) ∧ Z.of_nat (size finished) ≤ N.

(** The invariant behind it: the page items of [d] on the channel and the
    finished pages of [d] are all numbered within [1..N]. *)
Definition numbered_within (d : string) (N : Z) (r : Run) : Prop :=
  (∀ m, in_channel m (world r) → type m = TPage → document_id m = d →
        ∃ p, page m = Some p ∧ 1 ≤ p ≤ N) ∧
  (∀ p, p ∈ MyDurableObject.get_finished_pages (storage_of (world r) d) →
        1 ≤ p ≤ N).

(** ** Concurrent consumers *)

(** The consumer's page is in the object's set. *)
Definition recorded (c : Pc) : bool :=
  match c with
  | AtStart | AtRecord => false
  | _ => true
  end.

(** The consumer has not checked yet. *)
Definition waiting (c : Pc) : bool :=
  match c with
  | AtStart | AtRecord | AtCheck => true
  | _ => false
  end.

(** Consumer [i] holds the item of page [i + 1] of the job. *)
Definition job_workers (d : string) (N : Z) (ws : list Worker) : Prop :=
  Z.of_nat (length ws) = N ∧
  ∀ i wk, ws !! i = Some wk →
    type (item wk) = TPage ∧ document_id (item wk) = d ∧
    page (item wk) = Some (Z.of_nat i + 1).

Definition someone_saw (ws : list Worker) : Prop :=
  ∃ i wk, ws !! i = Some wk ∧ saw_completion wk = true.

(** Nobody was told yet: the size is still stored, the object holds exactly
    the pages of the consumers that recorded, and somebody has yet to
    check. *)
Definition undecided (d : string) (N : Z) (ws : list Worker) (r : Run) : Prop :=
  amount_of_pages (storage_of (world r) d) = Some N ∧
  (∀ x, x ∈ MyDurableObject.get_finished_pages (storage_of (world r) d) ↔
        ∃ i wk, ws !! i = Some wk ∧ recorded (pc wk) = true ∧
                x = Z.of_nat i + 1) ∧
  ∃ i wk, ws !! i = Some wk ∧ waiting (pc wk) = true.

Definition race_invariant (d : string) (N : Z) (ws : list Worker) (r : Run)
  : Prop :=
  job_workers d N ws ∧ (someone_saw ws ∨ undecided d N ws r).

(** The number of steps that a consumer at [c] has left, at most. *)
Definition steps_left (c : Pc) : nat :=
  match c with
  | AtStart => 5
  | AtRecord => 4
  | AtCheck => 3
  | AtEmit => 2
  | AtDestroy => 1
  | Finished _ => 0
  end.

(** A schedule that gives every consumer the steps it needs to finish. *)
Definition fair (schedule : list nat) (ws : list Worker) : Prop :=
  ∀ i, (i < length ws)%nat → (5 ≤ count_occ Nat.eq_dec schedule i)%nat.

(** ** A small job to run the model on *)

(** A clock that stands still, and one that advances at every reading. *)
Definition demo_clock : nat → Z := λ _, 1000.

Definition ticking_clock : nat → Z := λ k, 1000 + Z.of_nat k.

Definition demo_env : Env :=
  {| DELAY_PER_QUEUE_EXECUTION := 10; RANDOMIZE_TO_MAX := false |}.

Definition start : Run := {| world := empty_world; history := [] |}.

(** The world after [GET /send_to_queue?amount=2] drew the identifier
    ["doc"]. *)
Definition demo_run : Run := (send_to_queue demo_clock (Some "2") "doc" start).2.

Definition demo_page (p : nat) : QueueMessage := page_message 1000 "doc" 2 p.

(** The demo job after both of its pages were consumed: the second page
    completed it and its state was deleted. *)
Definition finished_run : Run :=
  (queue demo_clock demo_env "a" [demo_page 0; demo_page 1] demo_run).2.

(** One consumer per page of the demo job, and a third one that receives a
    second delivery of page 1. *)
Definition workers_with_duplicate : list Worker :=
  workers_of "doc" 2 1000 ++
  [{| execution := "again"; item := demo_page 0; pc := AtStart |}].

(** A page item of another document. *)
Definition other_page : QueueMessage :=
  {| type := TPage; start_time := 5; document_id := "other";
     page := Some 1; total_pages := Some 1 |}.

(** A page item of the demo job with a page number of its own. *)
Definition stray_page (p : Z) : QueueMessage :=
  {| type := TPage; start_time := 1000; document_id := "doc";
     page := Some p; total_pages := Some 2 |}.

(** ** Decimal numerals *)

(** The string of the decimal digits [ds], most significant first, as it
    appears in a URL query, and the number it denotes. *)
Definition digit_char (d : Z) : ascii := ascii_of_nat (48 + Z.to_nat d).

Fixpoint digits_to_string (ds : list Z) : string :=
  match ds with
  | [] => EmptyString
  | d :: ds' => String (digit_char d) (digits_to_string ds')
  end.

Definition digits_value (ds : list Z) : Z :=
  foldl (λ acc d, acc * 10 + d) 0 ds.

(** * Properties *)

(** ** The monad and the stubs *)

Ltac unfold_m :=
  unfold stub.set_amount_of_pages, stub.finished_page, stub.is_finished,
    stub.get_finished_pages, stub.delete, MY_QUEUE.send, MY_QUEUE.sendBatch,
    date_now, emit, update, read, throw, mbind, M_bind, mret, M_ret in *.

Lemma storage_of_call_eq d f w : storage_of (call d f w) d = f (storage_of w d).
Proof. unfold storage_of, call; simpl. by rewrite lookup_insert_eq. Qed.

Lemma storage_of_call_ne d d' f w :
  d ≠ d' → storage_of (call d f w) d' = storage_of w d'.
Proof. intros. unfold storage_of, call; simpl. by rewrite lookup_insert_ne. Qed.

Lemma storage_of_submit s w d : storage_of (submit s w) d = storage_of w d.
Proof. done. Qed.

Lemma storage_of_tick n w d : storage_of (tick n w) d = storage_of w d.
Proof. done. Qed.

Section OnMessage.
Variable clock : nat → Z.
Variable env : Env.
Variable ex : string.

Lemma on_message_end m r :
  type m = TEnd →
  on_message clock env ex m r =
    (Ok tt,
     {| world := tick 1 (world r);
        history := history r ++
          [EvLogEnd ex (document_id m)
             (clock (date_reads (world r)) - start_time m)] |}).
Proof. intros Ht. unfold on_message. rewrite Ht. by unfold_m. Qed.

Lemma on_message_skip m r :
  type m = TPage → truthy (page m) = false →
  on_message clock env ex m r =
    (Ok tt,
     {| world := world r; history := history r ++ page_effects env ex m |}).
Proof.
  intros Ht Hp. unfold on_message. rewrite Ht, Hp. unfold_m; simpl.
  by rewrite <- app_assoc.
Qed.

Lemma on_message_record m r :
  type m = TPage → truthy (page m) = true →
  let d := document_id m in
  let p := default 0 (page m) in
  let w1 := call d (MyDurableObject.finished_page p) (world r) in
  on_message clock env ex m r =
    if MyDurableObject.is_finished (storage_of w1 d)
    then (Ok tt,
          {| world := call d MyDurableObject.delete
                        (submit (Send (end_message m)) w1);
             history := history r ++ page_effects env ex m ++
               [EvFinishedPage d p; EvIsFinished d true;
                EvSubmit (Send (end_message m)); EvDelete d] |})
    else (Ok tt,
          {| world := w1;
             history := history r ++ page_effects env ex m ++
               [EvFinishedPage d p; EvIsFinished d false] |}).
Proof.
  intros Ht Hp d p w1. unfold on_message. rewrite Ht, Hp. unfold_m; simpl.
  fold d p w1. destruct (MyDurableObject.is_finished (storage_of w1 d)); simpl;
    by rewrite <- !app_assoc.
Qed.

End OnMessage.

(** ** Counting observations *)

Lemma count_events_app P tr1 tr2 :
  count_events P (tr1 ++ tr2) = (count_events P tr1 + count_events P tr2)%nat.
Proof. unfold count_events. by rewrite List.filter_app, length_app. Qed.

Lemma completions_app d tr1 tr2 n1 n2 :
  completions d tr1 n1 → completions d tr2 n2 →
  completions d (tr1 ++ tr2) (n1 + n2).
Proof.
  intros (?&?&?) (?&?&?). unfold completions.
  rewrite !count_events_app. lia.
Qed.

Lemma recorded_by_Some d m p :
  recorded_by d m = Some p ↔
  type m = TPage ∧ document_id m = d ∧ page m = Some p ∧ p ≠ 0.
Proof.
  unfold recorded_by, truthy. split.
  - destruct (bool_decide_reflect (type m = TPage ∧ document_id m = d))
      as [[??]|?]; simpl; [|done].
    destruct (page m) as [q|]; [|done].
    destruct (Z.eqb_spec q 0); simpl; [done|]. intros [= ->]. done.
  - intros (Ht & Hd & Hp & Hz). rewrite bool_decide_eq_true_2 by done.
    rewrite Hp. simpl. destruct (Z.eqb_spec p 0); done.
Qed.

Lemma recorded_by_None d m :
  recorded_by d m = None ↔
  type m = TEnd ∨ document_id m ≠ d ∨ truthy (page m) = false.
Proof.
  unfold recorded_by. split.
  - destruct (bool_decide_reflect (type m = TPage ∧ document_id m = d))
      as [[??]|Hn]; simpl.
    + destruct (truthy (page m)) eqn:Ht; [|auto].
      intros Hp. rewrite Hp in Ht. done.
    + intros _. destruct (type m); [|auto].
      destruct (decide (document_id m = d)); [|auto]. destruct Hn; done.
  - intros [Ht|[Hd|Hp]].
    + rewrite bool_decide_eq_false_2; [done|]. intros [? _]. congruence.
    + rewrite bool_decide_eq_false_2; [done|]. intros [_ ?]. done.
    + rewrite Hp. by rewrite andb_false_r.
Qed.

Ltac count_trace :=
  unfold completions, count_events, observes, terminal, destroys; simpl;
  repeat first
    [ rewrite bool_decide_eq_true_2 by (done || tauto)
    | rewrite bool_decide_eq_false_2 by (done || tauto) ];
  simpl; done.

Section OnMessageDoc.
Variable clock : nat → Z.
Variable env : Env.
Variable ex : string.

(** One message, seen from document [d]. *)
Lemma on_message_doc d m r :
  ∃ tr r',
    on_message clock env ex m r = (Ok tt, r') ∧
    history r' = history r ++ tr ∧
    match recorded_by d m with
    | Some p =>
        let res := record_step p (storage_of (world r) d) in
        storage_of (world r') d = res.1 ∧
        completions d tr (if res.2 then 1 else 0)
    | None =>
        storage_of (world r') d = storage_of (world r) d ∧
        completions d tr 0
    end.
Proof.
  destruct (recorded_by d m) as [p|] eqn:Hrec.
  - apply recorded_by_Some in Hrec as (Ht & Hd & Hp & Hz).
    assert (truthy (page m) = true) as Htr.
    { rewrite Hp. simpl. by destruct (Z.eqb_spec p 0). }
    pose proof (on_message_record clock env ex m r Ht Htr) as Heq.
    simpl in Heq. rewrite Hp, Hd in Heq. simpl in Heq.
    rewrite storage_of_call_eq in Heq.
    unfold record_step.
    destruct (MyDurableObject.is_finished
                (MyDurableObject.finished_page p (storage_of (world r) d))).
    + eexists _, _. split; [exact Heq|]. simpl. split; [done|].
      split; [by rewrite storage_of_call_eq|].
      count_trace.
    + eexists _, _. split; [exact Heq|]. simpl. split; [done|].
      split; [by rewrite storage_of_call_eq|].
      count_trace.
  - apply recorded_by_None in Hrec.
    destruct (type m) eqn:Ht.
    + destruct (truthy (page m)) eqn:Htr.
      * destruct Hrec as [?|[Hd|?]]; [done| |done].
        pose proof (on_message_record clock env ex m r Ht Htr) as Heq.
        simpl in Heq.
        set (w1 := call (document_id m) _ (world r)) in Heq.
        destruct (MyDurableObject.is_finished (storage_of w1 (document_id m))).
        -- eexists _, _. split; [exact Heq|]. simpl. split; [done|].
           split.
           { rewrite storage_of_call_ne by done. subst w1.
             by rewrite storage_of_submit, storage_of_call_ne. }
           count_trace.
        -- eexists _, _. split; [exact Heq|]. simpl. split; [done|].
           split; [subst w1; by rewrite storage_of_call_ne|].
           count_trace.
      * eexists _, _. split; [by apply on_message_skip|]. simpl. done.
    + eexists _, _. split; [by apply on_message_end|]. simpl. done.
Qed.

End OnMessageDoc.

(** ** Sets of pages *)

Lemma size_covering (S : gset Z) N :
  0 ≤ N → (∀ p, 1 ≤ p ≤ N → p ∈ S) → N ≤ Z.of_nat (size S).
Proof.
  intros HN Hcov.
  assert (list_to_set (seqZ 1 N) ⊆ S) as Hsub.
  { intros p Hp. apply elem_of_list_to_set, elem_of_seqZ in Hp.
    apply Hcov. lia. }
  apply subseteq_size in Hsub.
  rewrite size_list_to_set, length_seqZ in Hsub by apply NoDup_seqZ. lia.
Qed.

Lemma size_within (S : gset Z) N :
  0 ≤ N → (∀ p, p ∈ S → 1 ≤ p ≤ N) → Z.of_nat (size S) ≤ N.
Proof.
  intros HN Hin.
  assert (S ⊆ list_to_set (seqZ 1 N)) as Hsub.
  { intros p Hp. apply elem_of_list_to_set, elem_of_seqZ.
    specialize (Hin p Hp). lia. }
  apply subseteq_size in Hsub.
  rewrite size_list_to_set, length_seqZ in Hsub by apply NoDup_seqZ. lia.
Qed.

Lemma size_add_le (S : gset Z) p : (size (S ∪ {[p]}) ≤ size S + 1)%nat.
Proof.
  rewrite size_union_alt.
  assert (size (({[p]} : gset Z) ∖ S) ≤ size ({[p]} : gset Z))%nat as Hle.
  { apply subseteq_size, subseteq_difference_l. done. }
  rewrite size_singleton in Hle. lia.
Qed.

Lemma size_add_pos (S : gset Z) p : (1 ≤ size (S ∪ {[p]}))%nat.
Proof.
  assert (size ({[p]} : gset Z) ≤ size (S ∪ {[p]}))%nat as Hle.
  { apply subseteq_size, union_subseteq_r. }
  rewrite size_singleton in Hle. lia.
Qed.

Lemma pages_of_nil d : pages_of d [] = ∅.
Proof. done. Qed.

Lemma pages_of_cons d m batch :
  pages_of d (m :: batch) =
    match recorded_by d m with
    | Some p => {[p]} ∪ pages_of d batch
    | None => pages_of d batch
    end.
Proof. unfold pages_of. simpl. by destruct (recorded_by d m). Qed.

Lemma pages_of_app d l1 l2 : pages_of d (l1 ++ l2) = pages_of d l1 ∪ pages_of d l2.
Proof.
  unfold pages_of. rewrite omap_app. apply leibniz_equiv.
  by rewrite list_to_set_app.
Qed.

Lemma elem_of_pages_of d batch p :
  p ∈ pages_of d batch ↔ ∃ m, m ∈ batch ∧ recorded_by d m = Some p.
Proof. unfold pages_of. rewrite elem_of_list_to_set, list_elem_of_omap. done. Qed.

Lemma number_or_Some_nonzero n d : n ≠ 0 → number_or (Some n) d = n.
Proof. intros. unfold number_or. by destruct (Z.eqb_spec n 0). Qed.

Lemma record_step_pending N p st :
  pending N st →
  let res := record_step p st in
  (res.2 = false ∧ pending N res.1 ∧
   MyDurableObject.get_finished_pages res.1 =
     MyDurableObject.get_finished_pages st ∪ {[p]})
  ∨ (res.2 = true ∧ gone res.1).
Proof.
  intros [Ha Hs]. unfold record_step, MyDurableObject.is_finished. simpl.
  rewrite Ha, number_or_Some_nonzero by lia.
  unfold MyDurableObject.get_finished_pages in *.
  pose proof (size_add_le (default ∅ (finished_pages st)) p).
  case_bool_decide as Hfin; simpl; [by right|left].
  split; [done|]. split; [|done].
  split; [done|]. unfold MyDurableObject.get_finished_pages. simpl. lia.
Qed.

Lemma record_step_gone p st :
  gone st → (record_step p st).2 = false ∧ gone (record_step p st).1.
Proof.
  unfold gone. intros Ha. unfold record_step, MyDurableObject.is_finished.
  simpl. rewrite Ha. simpl.
  pose proof (size_add_pos (default ∅ (finished_pages st)) p).
  rewrite bool_decide_eq_false_2 by lia. done.
Qed.

(** ** Sequential consumption, seen from one document *)

Section Consumption.
Variable clock : nat → Z.
Variable env : Env.

Lemma queue_cons ex m batch r r1 :
  on_message clock env ex m r = (Ok tt, r1) →
  queue clock env ex (m :: batch) r = queue clock env ex batch r1.
Proof.
  intros Hm. unfold queue. simpl. unfold mbind, M_bind. by rewrite Hm.
Qed.

Lemma consume_cons ex batch deliveries r r1 :
  queue clock env ex batch r = (Ok tt, r1) →
  consume clock env ((ex, batch) :: deliveries) r =
    consume clock env deliveries r1.
Proof.
  intros Hq. unfold consume. simpl. unfold mbind, M_bind. by rewrite Hq.
Qed.

Lemma queue_gone d ex batch r :
  gone (storage_of (world r) d) →
  ∃ tr r',
    queue clock env ex batch r = (Ok tt, r') ∧
    history r' = history r ++ tr ∧
    gone (storage_of (world r') d) ∧
    completions d tr 0.
Proof.
  revert r. induction batch as [|m batch IH]; intros r Hg.
  - exists [], r. rewrite app_nil_r. done.
  - destruct (on_message_doc clock env ex d m r) as (tr1 & r1 & Hm & Hh & Hd).
    assert (gone (storage_of (world r1) d) ∧ completions d tr1 0) as [Hg1 Hc1].
    { destruct (recorded_by d m) as [p|].
      - destruct Hd as [Hst Hc].
        destruct (record_step_gone p _ Hg) as [Hf Hg'].
        rewrite Hf in Hc. rewrite Hst. done.
      - destruct Hd as [Hst Hc]. rewrite Hst. done. }
    destruct (IH r1 Hg1) as (tr2 & r2 & Hq & Hh2 & Hg2 & Hc2).
    exists (tr1 ++ tr2), r2. rewrite (queue_cons _ _ _ _ _ Hm).
    split; [done|]. split; [by rewrite Hh2, Hh, app_assoc|].
    split; [done|]. apply (completions_app d _ _ 0 0); done.
Qed.

Lemma queue_pending d N ex batch r :
  pending N (storage_of (world r) d) →
  ∃ tr r',
    queue clock env ex batch r = (Ok tt, r') ∧
    history r' = history r ++ tr ∧
    progress d N (storage_of (world r) d) (storage_of (world r') d)
      (pages_of d batch) tr.
Proof.
  revert r. induction batch as [|m batch IH]; intros r Hp.
  - exists [], r. rewrite app_nil_r. repeat split; [].
    left. rewrite pages_of_nil, union_empty_r_L. done.
  - destruct (on_message_doc clock env ex d m r) as (tr1 & r1 & Hm & Hh & Hd).
    rewrite (queue_cons _ _ _ _ _ Hm), pages_of_cons.
    destruct (recorded_by d m) as [p|].
    + destruct Hd as [Hst Hc].
      destruct (record_step_pending N p _ Hp) as [(Hf & Hp1 & Hs1)|[Hf Hg1]];
        rewrite Hf in Hc; rewrite <- Hst in *.
      * destruct (IH r1 Hp1) as (tr2 & r2 & Hq & Hh2 & Hpr).
        exists (tr1 ++ tr2), r2. split; [done|].
        split; [by rewrite Hh2, Hh, app_assoc|].
        destruct Hpr as [(Hp2 & Hs2 & Hc2)|[Hg2 Hc2]].
        -- left. split; [done|]. split.
           ++ rewrite Hs2, Hs1. by rewrite (assoc_L (∪)).
           ++ apply (completions_app d _ _ 0 0); done.
        -- right. split; [done|]. apply (completions_app d _ _ 0 1); done.
      * destruct (queue_gone d ex batch r1 Hg1) as (tr2 & r2 & Hq & Hh2 & Hg2 & Hc2).
        exists (tr1 ++ tr2), r2. split; [done|].
        split; [by rewrite Hh2, Hh, app_assoc|].
        right. split; [done|]. apply (completions_app d _ _ 1 0); done.
    + destruct Hd as [Hst Hc]. rewrite <- Hst in *.
      destruct (IH r1 Hp) as (tr2 & r2 & Hq & Hh2 & Hpr).
      exists (tr1 ++ tr2), r2. split; [done|].
      split; [by rewrite Hh2, Hh, app_assoc|].
      destruct Hpr as [(Hp2 & Hs2 & Hc2)|[Hg2 Hc2]].
      * left. split; [done|]. split; [done|].
        apply (completions_app d _ _ 0 0); done.
      * right. split; [done|]. apply (completions_app d _ _ 0 1); done.
Qed.

Lemma consume_gone d deliveries r :
  gone (storage_of (world r) d) →
  ∃ tr r',
    consume clock env deliveries r = (Ok tt, r') ∧
    history r' = history r ++ tr ∧
    gone (storage_of (world r') d) ∧
    completions d tr 0.
Proof.
  revert r. induction deliveries as [|[ex batch] deliveries IH]; intros r Hg.
  - exists [], r. rewrite app_nil_r. done.
  - destruct (queue_gone d ex batch r Hg) as (tr1 & r1 & Hq & Hh & Hg1 & Hc1).
    destruct (IH r1 Hg1) as (tr2 & r2 & Hq2 & Hh2 & Hg2 & Hc2).
    exists (tr1 ++ tr2), r2. rewrite (consume_cons _ _ _ _ _ Hq).
    split; [done|]. split; [by rewrite Hh2, Hh, app_assoc|].
    split; [done|]. apply (completions_app d _ _ 0 0); done.
Qed.

Lemma consume_pending d N deliveries r :
  pending N (storage_of (world r) d) →
  ∃ tr r',
    consume clock env deliveries r = (Ok tt, r') ∧
    history r' = history r ++ tr ∧
    progress d N (storage_of (world r) d) (storage_of (world r') d)
      (pages_of d (delivered deliveries)) tr.
Proof.
  revert r. induction deliveries as [|[ex batch] deliveries IH]; intros r Hp.
  - exists [], r. rewrite app_nil_r. repeat split; [].
    left. unfold delivered. simpl. rewrite pages_of_nil, union_empty_r_L. done.
  - destruct (queue_pending d N ex batch r Hp) as (tr1 & r1 & Hq & Hh & Hpr).
    rewrite (consume_cons _ _ _ _ _ Hq).
    unfold delivered. simpl. rewrite pages_of_app. fold (delivered deliveries).
    destruct Hpr as [(Hp1 & Hs1 & Hc1)|[Hg1 Hc1]].
    + destruct (IH r1 Hp1) as (tr2 & r2 & Hq2 & Hh2 & Hpr2).
      exists (tr1 ++ tr2), r2. split; [done|].
      split; [by rewrite Hh2, Hh, app_assoc|].
      destruct Hpr2 as [(Hp2 & Hs2 & Hc2)|[Hg2 Hc2]].
      * left. split; [done|]. split.
        -- rewrite Hs2, Hs1. by rewrite (assoc_L (∪)).
        -- apply (completions_app d _ _ 0 0); done.
      * right. split; [done|]. apply (completions_app d _ _ 0 1); done.
    + destruct (consume_gone d deliveries r1 Hg1)
        as (tr2 & r2 & Hq2 & Hh2 & Hg2 & Hc2).
      exists (tr1 ++ tr2), r2. split; [done|].
      split; [by rewrite Hh2, Hh, app_assoc|].
      right. split; [done|]. apply (completions_app d _ _ 1 0); done.
Qed.

End Consumption.

(** ** Exactly one completion under sequential delivery *)

Lemma initialized_pending N : 1 ≤ N → pending N (initialized N).
Proof.
  intros. split; [done|].
  change (Z.of_nat (size (∅ : gset Z)) < N). rewrite size_empty. lia.
Qed.

(** C1. For a job initialized with [N >= 1] expected pages, whatever is
    delivered sequentially (any batches, any order, any duplicates, items of
    other documents in between), as long as every page [1..N] of the job is
    delivered at least once, the worker observes completion exactly once over
    the whole sequence: one successful [is_finished], one terminal ['end']
    item, one deletion of the job state. *)
Theorem completion_exactly_once clock env d N deliveries r :
  1 ≤ N →
  storage_of (world r) d = initialized N →
  (∀ p, 1 ≤ p ≤ N →
     ∃ m, m ∈ delivered deliveries ∧
          type m = TPage ∧ document_id m = d ∧ page m = Some p) →
  ∃ tr r',
    consume clock env deliveries r = (Ok tt, r') ∧
    history r' = history r ++ tr ∧
    count_events (observes d) tr = 1%nat ∧
    count_events (terminal d) tr = 1%nat ∧
    count_events (destroys d) tr = 1%nat.
Proof.
  intros HN Hinit Hcov.
  assert (pending N (storage_of (world r) d)) as Hp
    by (rewrite Hinit; by apply initialized_pending).
  destruct (consume_pending clock env d N deliveries r Hp)
    as (tr & r' & Hrun & Hh & [(Hp' & Hs & _)|[_ Hc]]).
  - exfalso. destruct Hp' as [_ Hlt].
    assert (N ≤ Z.of_nat (size (MyDurableObject.get_finished_pages
                                  (storage_of (world r') d)))); [|lia].
    apply size_covering; [lia|]. intros p Hpn. rewrite Hs.
    apply elem_of_union_r, elem_of_pages_of.
    destruct (Hcov p Hpn) as (m & Hm & Ht & Hd & Hpg).
    exists m. split; [done|]. apply recorded_by_Some. repeat split; [done..|lia].
  - exists tr, r'. done.
Qed.

Lemma completion_exactly_once_witness :
  ∃ tr r',
    consume demo_clock demo_env
      [("a", [demo_page 1; demo_page 1; demo_page 0]); ("b", [demo_page 1])]
      demo_run = (Ok tt, r') ∧
    history r' = history demo_run ++ tr ∧
    count_events (observes "doc") tr = 1%nat ∧
    count_events (terminal "doc") tr = 1%nat ∧
    count_events (destroys "doc") tr = 1%nat.
Proof.
  apply (completion_exactly_once demo_clock demo_env "doc" 2).
  - lia.
  - vm_compute. reflexivity.
  - intros p Hp. assert (p = 1 ∨ p = 2) as [-> | ->] by lia.
    + exists (demo_page 0). split; [|done]. apply list_elem_of_In. simpl. auto.
    + exists (demo_page 1). split; [|done]. apply list_elem_of_In. simpl. auto.
Defined.

(** ** Order of the effects of a completion *)

Lemma emit_then_destroy_nil : emit_then_destroy [].
Proof. split; intros i d Hi; by rewrite lookup_nil in Hi. Qed.

Lemma emit_then_destroy_app tr1 tr2 :
  emit_then_destroy tr1 → emit_then_destroy tr2 →
  emit_then_destroy (tr1 ++ tr2).
Proof.
  intros [Hf1 Hd1] [Hf2 Hd2]. split; intros i d Hi.
  - apply lookup_app_Some in Hi as [Hi|[Hle Hi]].
    + destruct (Hf1 i d Hi) as (m & Hs & Ht & Hdoc & Hdel).
      exists m. repeat split; [|done..|]; by apply lookup_app_l_Some.
    + destruct (Hf2 _ d Hi) as (m & Hs & Ht & Hdoc & Hdel).
      exists m. repeat split; [|done..|].
      * rewrite lookup_app_r by lia.
        by replace (S i - length tr1)%nat with (S (i - length tr1)) by lia.
      * rewrite lookup_app_r by lia.
        by replace (S (S i) - length tr1)%nat
          with (S (S (i - length tr1))) by lia.
  - apply lookup_app_Some in Hi as [Hi|[Hle Hi]].
    + destruct (Hd1 i d Hi) as (j & m & -> & Hs & Ht & Hdoc).
      exists j, m. repeat split; [|done..]. by apply lookup_app_l_Some.
    + destruct (Hd2 _ d Hi) as (j & m & Hj & Hs & Ht & Hdoc).
      exists (length tr1 + j)%nat, m. repeat split; [lia| |done..].
      rewrite lookup_app_r by lia.
      by replace (length tr1 + j - length tr1)%nat with j by lia.
Qed.

Ltac by_position i H :=
  unfold page_effects in H; simpl in H;
  repeat (lazymatch type of H with
          | [] !! _ = _ => fail
          | _ => destruct i as [|i]; simpl in H; [simplify_eq|]
          end);
  try (rewrite lookup_nil in H; done).

Section Order.
Variable clock : nat → Z.
Variable env : Env.
Variable ex : string.

Lemma on_message_order m r :
  ∃ tr r',
    on_message clock env ex m r = (Ok tt, r') ∧
    history r' = history r ++ tr ∧
    emit_then_destroy tr.
Proof.
  destruct (type m) eqn:Ht.
  - destruct (truthy (page m)) eqn:Htr.
    + pose proof (on_message_record clock env ex m r Ht Htr) as Heq.
      cbv zeta in Heq.
      destruct (MyDurableObject.is_finished _).
      * eexists _, _. split; [exact Heq|]. split; [done|].
        split; intros i d Hi; by_position i Hi.
        -- exists (end_message m). done.
        -- exists 4%nat, (end_message m). done.
      * eexists _, _. split; [exact Heq|]. split; [done|].
        split; intros i d Hi; by_position i Hi.
    + eexists _, _. split; [by apply on_message_skip|]. split; [done|].
      split; intros i d Hi; by_position i Hi.
  - eexists _, _. split; [by apply on_message_end|]. split; [done|].
    split; intros i d Hi; by_position i Hi.
Qed.

End Order.

(** C8. In every run of the worker, each step whose completion check
    succeeds submits the terminal ['end'] item of the document to the channel
    and only then deletes the document's state: in the trace of [queue] a
    successful check is followed by the submission and then by the deletion,
    and every deletion comes right after such a submission. *)
Theorem queue_emits_then_destroys clock env ex batch r :
  ∃ tr r',
    queue clock env ex batch r = (Ok tt, r') ∧
    history r' = history r ++ tr ∧
    (∀ i d, tr !! i = Some (EvIsFinished d true) →
       ∃ m, tr !! S i = Some (EvSubmit (Send m)) ∧
            type m = TEnd ∧ document_id m = d ∧
            tr !! S (S i) = Some (EvDelete d)) ∧
    (∀ i d, tr !! i = Some (EvDelete d) →
       ∃ j m, i = S j ∧ tr !! j = Some (EvSubmit (Send m)) ∧
              type m = TEnd ∧ document_id m = d).
Proof.
  revert r. induction batch as [|m batch IH]; intros r.
  - exists [], r. rewrite app_nil_r. split; [done|]. split; [done|].
    apply emit_then_destroy_nil.
  - destruct (on_message_order clock env ex m r) as (tr1 & r1 & Hm & Hh1 & Ho1).
    destruct (IH r1) as (tr2 & r2 & Hq & Hh2 & Ho2).
    exists (tr1 ++ tr2), r2. rewrite (queue_cons _ _ _ _ _ _ _ Hm).
    split; [done|]. split; [by rewrite Hh2, Hh1, app_assoc|].
    change (emit_then_destroy (tr1 ++ tr2)).
    apply emit_then_destroy_app; [exact Ho1|exact Ho2].
Qed.

(** ** Items without a page *)

(** C10. A delivered item of kind ['page'] whose [page] field is absent or
    [0] is consumed after the delay and the log line and nothing else: no
    completion is recorded or checked, nothing is sent, nothing is deleted,
    and the world is left as it was. *)
Theorem page_item_without_page clock env ex m r :
  type m = TPage →
  page m = None ∨ page m = Some 0 →
  on_message clock env ex m r =
    (Ok tt,
     {| world := world r;
        history := history r ++
          [EvSleep (delay_amount env);
           EvLogPage ex (document_id m) (page m) (total_pages m)] |}).
Proof.
  intros Ht Hp. apply on_message_skip; [done|].
  by destruct Hp as [-> | ->].
Qed.

Lemma page_item_without_page_witness :
  on_message demo_clock demo_env "a"
    {| type := TPage; start_time := 1000; document_id := "doc";
       page := Some 0; total_pages := Some 2 |} demo_run =
    (Ok tt,
     {| world := world demo_run;
        history := history demo_run ++
          [EvSleep (FixedDelay 10); EvLogPage "a" "doc" (Some 0) (Some 2)] |}).
Proof.
  apply (page_item_without_page demo_clock demo_env "a"
           {| type := TPage; start_time := 1000; document_id := "doc";
              page := Some 0; total_pages := Some 2 |} demo_run).
  - reflexivity.
  - right. reflexivity.
Defined.

(** ** Idempotent recording *)

Lemma finished_page_idem p st :
  MyDurableObject.finished_page p (MyDurableObject.finished_page p st) =
  MyDurableObject.finished_page p st.
Proof.
  unfold MyDurableObject.finished_page. simpl. do 2 f_equal.
  apply leibniz_equiv. rewrite <- (assoc (∪)). by rewrite (idemp (∪)).
Qed.

Lemma record_step_twice p st :
  (record_step p (record_step p st).1).2 = false.
Proof.
  unfold record_step at 2.
  destruct (MyDurableObject.is_finished (MyDurableObject.finished_page p st))
    eqn:Hfin; simpl.
  - by apply record_step_gone.
  - unfold record_step. by rewrite finished_page_idem, Hfin.
Qed.

Section Duplicates.
Variable clock : nat → Z.
Variable env : Env.

Lemma on_message_twice ex m r :
  ∃ tr1 r1 tr2 r2,
    on_message clock env ex m r = (Ok tt, r1) ∧
    history r1 = history r ++ tr1 ∧
    on_message clock env ex m r1 = (Ok tt, r2) ∧
    history r2 = history r1 ++ tr2 ∧
    completions (document_id m) tr2 0.
Proof.
  destruct (on_message_doc clock env ex (document_id m) m r)
    as (tr1 & r1 & Hm1 & Hh1 & Hd1).
  destruct (on_message_doc clock env ex (document_id m) m r1)
    as (tr2 & r2 & Hm2 & Hh2 & Hd2).
  exists tr1, r1, tr2, r2. repeat split; try done;
    destruct (recorded_by (document_id m) m) as [p|];
    destruct Hd1 as [Hst1 _]; destruct Hd2 as [_ Hc2];
    try apply Hc2; rewrite Hst1, record_step_twice in Hc2; apply Hc2.
Qed.

Lemma consume_at_most_once d N deliveries r :
  1 ≤ N →
  storage_of (world r) d = initialized N →
  ∃ tr r' n,
    consume clock env deliveries r = (Ok tt, r') ∧
    history r' = history r ++ tr ∧
    completions d tr n ∧ (n ≤ 1)%nat.
Proof.
  intros HN Hinit.
  assert (pending N (storage_of (world r) d)) as Hp
    by (rewrite Hinit; by apply initialized_pending).
  destruct (consume_pending clock env d N deliveries r Hp)
    as (tr & r' & Hrun & Hh & [(_ & _ & Hc)|[_ Hc]]).
  - exists tr, r', 0%nat. split; [done|]. split; [done|]. split; [done|lia].
  - exists tr, r', 1%nat. split; [done|]. split; [done|]. split; [done|lia].
Qed.

End Duplicates.

(** C6. A second delivery of a page that is already recorded makes the
    terminal observation fire a second time. Three consumers run
    concurrently on the demo job: one for page 1, one for page 2 and one for
    a second delivery of page 1. The first records page 1 and its check
    fails; the second records page 2 and its check succeeds; before the
    second deletes the state, the third records page 1 again, which changes
    nothing, and its check succeeds too. Two terminal items are sent and the
    state is deleted twice. *)
Lemma duplicate_double_completion :
  ∃ ws r',
    run_schedule demo_clock demo_env
      [0; 0; 0; 1; 1; 1; 2; 2; 2; 1; 1; 2; 2]%nat
      workers_with_duplicate demo_run = (Ok ws, r') ∧
    pc <$> ws = [Finished false; Finished true; Finished true] ∧
    observers ws = 2%nat ∧
    count_events (observes "doc") (history r') = 2%nat ∧
    count_events (terminal "doc") (history r') = 2%nat ∧
    count_events (destroys "doc") (history r') = 2%nat.
Proof. eexists _, _. vm_compute. done. Qed.

(** ** The status of a job without state *)

Lemma is_finished_empty : MyDurableObject.is_finished empty_storage = true.
Proof. reflexivity. Qed.

Lemma status_run q r :
  let d := string_or q "" in
  status q r =
    (Ok (Json (MyDurableObject.is_finished (storage_of (world r) d))
           (elements (MyDurableObject.get_finished_pages (storage_of (world r) d)))),
     {| world := world r;
        history := history r ++
          [EvIsFinished d (MyDurableObject.is_finished (storage_of (world r) d));
           EvGetFinishedPages d] |}).
Proof. unfold status. unfold_m. simpl. by rewrite <- app_assoc. Qed.

Lemma delete_run d r :
  stub.delete d r =
    (Ok tt,
     {| world := call d MyDurableObject.delete (world r);
        history := history r ++ [EvDelete d] |}).
Proof. reflexivity. Qed.

(** The claim of C3 fails: once the demo job is complete and destroyed its
    state is empty, yet [is_finished] answers [true] and [/status] answers
    [finished: true], not [false]. *)
Lemma status_of_absent_job_counterexample :
  storage_of (world finished_run) "doc" = empty_storage ∧
  MyDurableObject.is_finished (storage_of (world finished_run) "doc") ≠ false ∧
  (status (Some "doc") finished_run).1 ≠ Ok (Json false []).
Proof. vm_compute. repeat split; discriminate. Qed.

(** C3, amended. For a document whose state was deleted or never written,
    the status snapshot is [finished: true] with no finished pages:
    [get_finished_pages] is empty and [is_finished] compares its size 0 with
    the defaulted amount 0. In particular [delete] leaves exactly that
    state. *)
Theorem status_of_absent_job :
  (∀ d r, storage_of (world (stub.delete d r).2) d = empty_storage) ∧
  (∀ q r,
     storage_of (world r) (string_or q "") = empty_storage →
     MyDurableObject.is_finished (storage_of (world r) (string_or q "")) = true ∧
     MyDurableObject.get_finished_pages (storage_of (world r) (string_or q "")) = ∅ ∧
     (status q r).1 = Ok (Json true [])).
Proof.
  split.
  - intros d r. rewrite delete_run. simpl. by rewrite storage_of_call_eq.
  - intros q r Hst. rewrite status_run. simpl. rewrite Hst.
    split; [done|]. split; [done|].
    change (MyDurableObject.get_finished_pages empty_storage) with (∅ : gset Z).
    by rewrite elements_empty.
Qed.

Lemma status_of_absent_job_witness :
  MyDurableObject.is_finished
    (storage_of (world finished_run) (string_or (Some "doc") "")) = true ∧
  MyDurableObject.get_finished_pages
    (storage_of (world finished_run) (string_or (Some "doc") "")) = ∅ ∧
  (status (Some "doc") finished_run).1 = Ok (Json true []).
Proof.
  apply (proj2 status_of_absent_job (Some "doc") finished_run).
  vm_compute. reflexivity.
Defined.

(** ** Dispatch *)

Lemma tick_tick n1 n2 w : tick n2 (tick n1 w) = tick (n1 + n2) w.
Proof. unfold tick. simpl. f_equal. lia. Qed.

Lemma tick_0 w : tick 0 w = w.
Proof. destruct w. unfold tick. simpl. f_equal. lia. Qed.

Section Dispatch.
Variable clock : nat → Z.

Lemma map_each_page_messages d N a n r :
  map_each (λ i, now ← date_now clock; mret (page_message now d N i))
    (seq a n) r =
  (Ok ((λ j, page_message (clock (date_reads (world r) + j)%nat) d N (a + j))
         <$> seq 0 n),
   {| world := tick n (world r); history := history r |}).
Proof.
  revert a r. induction n as [|n IH]; intros a r.
  - simpl. unfold mret, M_ret. rewrite tick_0. by destruct r.
  - simpl. unfold_m. simpl. fold (@map_each nat QueueMessage).
    unfold_m. rewrite IH. simpl. rewrite tick_tick.
    f_equal. f_equal. f_equal.
    + do 2 f_equal; lia.
    + rewrite <- fmap_S_seq, <- list_fmap_compose.
      apply list_fmap_ext. intros _ j _. simpl. do 2 f_equal; lia.
Qed.

Lemma built_length k d N :
  length ((λ j, page_message (clock (k + j)%nat) d N j)
            <$> seq 0 (Z.to_nat (ToLength N))) = Z.to_nat (ToLength N).
Proof. by rewrite length_fmap, length_seq. Qed.

(** [dispatch] up to the call of [sendBatch]. *)
Lemma dispatch_run N d r :
  ToLength N < 2 ^ 32 →
  let messages := built_messages clock (date_reads (world r)) d N in
  dispatch clock N d r =
    match
      MY_QUEUE.sendBatch messages
        {| world :=
             tick (Z.to_nat (ToLength N))
               (call d (MyDurableObject.set_amount_of_pages N) (world r));
           history := history r ++ [EvSetAmount d N] |}
    with
    | (Ok _, r') => (Ok (Text d N), r')
    | (Throw e, r') => (Throw e, r')
    end.
Proof.
  intros Hlen messages. unfold dispatch, array_from.
  destruct (Z.leb_spec (2 ^ 32) (ToLength N)) as [|_]; [lia|].
  unfold stub.set_amount_of_pages.
  unfold mbind at 1 2 3, M_bind, emit at 1, update at 1. simpl.
  rewrite map_each_page_messages. simpl.
  fold (built_messages clock (date_reads (world r)) d N). fold messages.
  by destruct (MY_QUEUE.sendBatch messages _) as [[|] ?].
Qed.

Lemma dispatch_ok N d r :
  ToLength N ≤ 100 →
  let messages := built_messages clock (date_reads (world r)) d N in
  dispatch clock N d r =
    (Ok (Text d N),
     {| world :=
          submit (SendBatch messages)
            (tick (Z.to_nat (ToLength N))
               (call d (MyDurableObject.set_amount_of_pages N) (world r)));
        history := history r ++
          [EvSetAmount d N; EvSubmit (SendBatch messages)] |}).
Proof.
  intros Hlen messages. rewrite dispatch_run by lia. fold messages.
  unfold MY_QUEUE.sendBatch, MY_QUEUE.batch_limit. unfold messages at 1, built_messages.
  rewrite built_length.
  destruct (Nat.ltb_spec 100 (Z.to_nat (ToLength N))) as [|_]; [lia|].
  unfold_m. simpl. by rewrite <- app_assoc.
Qed.

(** The queue refuses a batch of more than 100 items: the size is stored,
    the clock was read, nothing is submitted. *)
Lemma dispatch_refused N d r :
  100 < ToLength N < 2 ^ 32 →
  dispatch clock N d r =
    (Throw QueueSendError,
     {| world :=
          tick (Z.to_nat (ToLength N))
            (call d (MyDurableObject.set_amount_of_pages N) (world r));
        history := history r ++ [EvSetAmount d N] |}).
Proof.
  intros Hlen. rewrite dispatch_run by lia.
  unfold MY_QUEUE.sendBatch, MY_QUEUE.batch_limit, built_messages.
  rewrite built_length.
  destruct (Nat.ltb_spec 100 (Z.to_nat (ToLength N))) as [_|]; [|lia].
  done.
Qed.

Lemma dispatch_throw N d r :
  2 ^ 32 ≤ ToLength N →
  dispatch clock N d r =
    (Throw RangeError,
     {| world := call d (MyDurableObject.set_amount_of_pages N) (world r);
        history := history r ++ [EvSetAmount d N] |}).
Proof.
  intros Hlen. unfold dispatch, array_from.
  destruct (Z.leb_spec (2 ^ 32) (ToLength N)) as [_|]; [|lia].
  by unfold_m.
Qed.

End Dispatch.

(** The three ways [dispatch] can go: the batch is accepted, the queue
    refuses it, or the items cannot be built. *)
Lemma dispatch_outcomes N :
  ToLength N ≤ 100 ∨ 100 < ToLength N < 2 ^ 32 ∨ 2 ^ 32 ≤ ToLength N.
Proof. lia. Qed.

Lemma ToLength_id N : 0 ≤ N < 2 ^ 32 → ToLength N = N.
Proof.
  intros. unfold ToLength. destruct (Z.leb_spec N 0); [lia|].
  assert (2 ^ 32 < 2 ^ 53 - 1) by done. lia.
Qed.

Lemma built_messages_length clock k d N :
  length (built_messages clock k d N) = Z.to_nat (ToLength N).
Proof. unfold built_messages. by rewrite length_fmap, length_seq. Qed.

Lemma built_messages_pages clock k d N :
  page <$> built_messages clock k d N = Some <$> seqZ 1 (ToLength N).
Proof.
  unfold built_messages. rewrite <- list_fmap_compose.
  unfold seqZ. rewrite <- !list_fmap_compose.
  apply list_fmap_ext. intros _ j _. simpl. f_equal; lia.
Qed.

Lemma elem_of_built_messages clock k d N m :
  m ∈ built_messages clock k d N →
  ∃ j, (j < Z.to_nat (ToLength N))%nat ∧
       m = page_message (clock (k + j)%nat) d N j.
Proof.
  unfold built_messages. intros (j & -> & Hj)%list_elem_of_fmap.
  apply elem_of_seq in Hj. exists j. split; [lia|done].
Qed.

(** The claim of C9 fails for a negative size, which [/send_to_queue] lets
    through ([?amount=-5]): the size [-5] is stored and no item is built. It
    also fails for a size above the limit of a batch ([?amount=250]): the
    size is stored, the queue refuses the batch of 250 items, the handler
    throws and nothing is submitted. *)
Lemma dispatch_counterexample :
  requested_amount (Some "-5") = -5 ∧
  ¬ dispatch_as_specified demo_clock (-5) "doc" start ∧
  requested_amount (Some "250") = 250 ∧
  ¬ dispatch_as_specified demo_clock 250 "doc" start.
Proof.
  split; [reflexivity|]. split; [|split; [reflexivity|]].
  - intros (r' & now & messages & _ & _ & _ & Hlen & _). lia.
  - intros (r' & now & messages & Hrun & _).
    rewrite dispatch_refused in Hrun by (vm_compute; split; reflexivity).
    discriminate.
Qed.

(** C9, amended. For every size [N] with [1 <= N <= 100], [dispatch] on a
    fresh document identifier (one without state) returns that identifier,
    stores [amount_of_pages = N] for it, with no finished page, and submits,
    as one batch, exactly [N] items of kind ['page'] with the page numbers
    [1..N] in order, [total_pages = N], that identifier and one common
    [start_time]. The items are built in one synchronous [Array.from],
    during which the clock of the runtime does not advance. *)
Theorem dispatch_builds_the_job clock N d r :
  1 ≤ N ≤ 100 →
  storage_of (world r) d = empty_storage →
  (∀ j, (j < Z.to_nat N)%nat →
        clock (date_reads (world r) + j)%nat = clock (date_reads (world r))) →
  dispatch_as_specified clock N d r ∧
  storage_of (world (dispatch clock N d r).2) d = initialized N.
Proof.
  intros HN Hfresh Hclock.
  assert (ToLength N = N) as Hlen by (apply ToLength_id; lia).
  split.
  - eexists _, (clock (date_reads (world r))), _.
    split; [apply dispatch_ok; lia|]. cbn [world].
    split; [by rewrite storage_of_submit, storage_of_tick, storage_of_call_eq|].
    split; [done|].
    split; [rewrite built_messages_length, Hlen; lia|].
    split; [by rewrite built_messages_pages, Hlen|].
    intros m (j & Hj & ->)%elem_of_built_messages. simpl.
    rewrite Hlen in Hj. by rewrite Hclock.
  - rewrite dispatch_ok by lia. cbn [snd world].
    by rewrite storage_of_submit, storage_of_tick, storage_of_call_eq, Hfresh.
Qed.

Lemma dispatch_builds_the_job_witness :
  dispatch_as_specified demo_clock 3 "doc" start ∧
  storage_of (world (dispatch demo_clock 3 "doc" start).2) "doc" = initialized 3.
Proof.
  apply (dispatch_builds_the_job demo_clock 3 "doc" start).
  - lia.
  - reflexivity.
  - reflexivity.
Defined.

(** ** The requested size *)

Lemma requested_amount_default s :
  parseInt s = None ∨ parseInt s = Some 0 →
  requested_amount (Some s) = defaultAmount.
Proof.
  intros Hs. unfold requested_amount. destruct s as [|c s]; [done|].
  simpl string_or. by destruct Hs as [-> | ->].
Qed.

Lemma requested_amount_parsed s n :
  parseInt s = Some n → n ≠ 0 → requested_amount (Some s) = n.
Proof.
  intros Hs Hn. unfold requested_amount. destruct s as [|c s]; [done|].
  simpl string_or. rewrite Hs. by apply number_or_Some_nonzero.
Qed.

(** The claim of C4 fails for a size that parses to a negative number:
    [-5] is not replaced by the default, it is stored as the job's size and
    an empty batch is submitted. *)
Lemma fallback_counterexample :
  (∃ n, parseInt "-5" = Some n ∧ n ≤ 0) ∧
  ¬ falls_back_to_default demo_clock "-5" "doc" start ∧
  send_to_queue demo_clock (Some "-5") "doc" start =
    (Ok (Text "doc" (-5)),
     {| world :=
          {| objects := {["doc" := initialized (-5)]};
             channel := [SendBatch []];
             date_reads := 0 |};
        history := [EvSetAmount "doc" (-5); EvSubmit (SendBatch [])] |}).
Proof.
  split; [exists (-5); split; [reflexivity|lia]|]. split.
  - intros (r' & messages & Hrun & _). vm_compute in Hrun. discriminate.
  - reflexivity.
Qed.

(** C4, amended. For every requested size that fails to parse as a number or
    parses to [0], [/send_to_queue] falls back to the default size 100: it
    stores 100 expected pages and submits exactly 100 items of kind
    ['page']. *)
Theorem fallback_to_default clock s d r :
  parseInt s = None ∨ parseInt s = Some 0 →
  requested_amount (Some s) = 100 ∧
  falls_back_to_default clock s d r.
Proof.
  intros Hs. pose proof (requested_amount_default s Hs) as Ha.
  split; [done|]. unfold falls_back_to_default, send_to_queue. rewrite Ha.
  eexists _, _. split; [by apply dispatch_ok|]. cbn [world].
  split; [by rewrite storage_of_submit, storage_of_tick, storage_of_call_eq|].
  split; [done|]. split; [by rewrite built_messages_length|].
  by intros m (j & _ & ->)%elem_of_built_messages.
Qed.

Lemma fallback_to_default_witness :
  requested_amount (Some "abc") = 100 ∧
  falls_back_to_default demo_clock "abc" "doc" start.
Proof.
  apply (fallback_to_default demo_clock "abc" "doc" start).
  left. reflexivity.
Defined.

(** ** The batch limit *)




(** ** Reachable job states *)

Lemma in_channel_app m w w' extra :
  channel w' = channel w ++ extra →
  in_channel m w' ↔ in_channel m w ∨ ∃ s, s ∈ extra ∧ m ∈ submitted s.
Proof.
  intros Hch. unfold in_channel. rewrite Hch. split.
  - intros (s & [Hs|Hs]%elem_of_app & Hm); [left|right]; by exists s.
  - intros [(s & Hs & Hm)|(s & Hs & Hm)]; exists s;
      (split; [apply elem_of_app; auto|done]).
Qed.

Lemma record_step_pages p st q :
  q ∈ MyDurableObject.get_finished_pages (record_step p st).1 →
  q ∈ MyDurableObject.get_finished_pages st ∨ q = p.
Proof.
  unfold record_step.
  destruct (MyDurableObject.is_finished _); simpl.
  - by intros ?%not_elem_of_empty.
  - unfold MyDurableObject.get_finished_pages. simpl.
    intros [?|?%elem_of_singleton]%elem_of_union; auto.
Qed.

Section Reachable.
Variable clock : nat → Z.
Variable env : Env.

Lemma on_message_channel ex m r :
  ∃ r' extra,
    on_message clock env ex m r = (Ok tt, r') ∧
    channel (world r') = channel (world r) ++ extra ∧
    ∀ s m', s ∈ extra → m' ∈ submitted s → type m' = TEnd.
Proof.
  destruct (type m) eqn:Ht.
  - destruct (truthy (page m)) eqn:Htr.
    + pose proof (on_message_record clock env ex m r Ht Htr) as Heq.
      cbv zeta in Heq. destruct (MyDurableObject.is_finished _).
      * eexists _, [Send (end_message m)]. split; [exact Heq|].
        split; [done|]. intros s m' ->%list_elem_of_singleton.
        by intros ->%list_elem_of_singleton.
      * eexists _, []. split; [exact Heq|]. simpl. rewrite app_nil_r.
        split; [done|]. by intros s m' ?%elem_of_nil.
    + eexists _, []. split; [by apply on_message_skip|]. simpl.
      rewrite app_nil_r. split; [done|]. by intros s m' ?%elem_of_nil.
  - eexists _, []. split; [by apply on_message_end|]. simpl.
    rewrite app_nil_r. split; [done|]. by intros s m' ?%elem_of_nil.
Qed.

Lemma on_message_numbered d N ex m r :
  numbered_within d N r → in_channel m (world r) →
  ∃ r',
    on_message clock env ex m r = (Ok tt, r') ∧
    numbered_within d N r' ∧
    (∀ m', in_channel m' (world r) → in_channel m' (world r')).
Proof.
  intros [Hch Hst] Hm.
  destruct (on_message_channel ex m r) as (r' & extra & Hrun & Hext & Hend).
  destruct (on_message_doc clock env ex d m r) as (tr & r'' & Hrun' & _ & Hdoc).
  rewrite Hrun in Hrun'. injection Hrun' as <-.
  exists r'. split; [done|]. split; [split|].
  - intros m' Hin Ht Hd.
    apply (in_channel_app _ _ _ _ Hext) in Hin as [Hin|(s & Hs & Hin)].
    + by apply Hch.
    + rewrite (Hend s m' Hs Hin) in Ht. done.
  - intros q Hq. destruct (recorded_by d m) as [p|] eqn:Hrec.
    + destruct Hdoc as [Heq _]. rewrite Heq in Hq.
      apply record_step_pages in Hq as [Hq| ->]; [by apply Hst|].
      apply recorded_by_Some in Hrec as (Ht & Hd & Hp & _).
      destruct (Hch m Hm Ht Hd) as (p' & Hp' & Hrange). congruence.
    + destruct Hdoc as [Heq _]. rewrite Heq in Hq. by apply Hst.
  - intros m' Hin. apply (in_channel_app _ _ _ _ Hext). by left.
Qed.

Lemma queue_numbered d N ex batch r :
  numbered_within d N r → (∀ m, m ∈ batch → in_channel m (world r)) →
  numbered_within d N (queue clock env ex batch r).2.
Proof.
  revert r. induction batch as [|m batch IH]; intros r Hinv Hin; [done|].
  destruct (on_message_numbered d N ex m r Hinv) as (r1 & Hrun & Hinv1 & Hmono).
  { apply Hin. left. }
  rewrite (queue_cons _ _ _ _ _ _ _ Hrun). apply IH; [done|].
  intros m' Hm'. apply Hmono, Hin. by right.
Qed.

Lemma dispatch_channel N d r :
  ∃ extra,
    channel (world (dispatch clock N d r).2) = channel (world r) ++ extra ∧
    ∀ s m, s ∈ extra → m ∈ submitted s →
      type m = TPage ∧ document_id m = d ∧
      ∃ p, page m = Some p ∧ 1 ≤ p ≤ N.
Proof.
  destruct (dispatch_outcomes N) as [Hok|[Hrefused|Hthrow]].
  - rewrite dispatch_ok by done. eexists [_]. split; [done|].
    intros s m ->%list_elem_of_singleton. simpl.
    intros (j & Hj & ->)%elem_of_built_messages. simpl.
    split; [done|]. split; [done|]. eexists. split; [done|].
    unfold ToLength in Hj. destruct (Z.leb_spec N 0); simpl in Hj; lia.
  - rewrite dispatch_refused by done. exists []. simpl. rewrite app_nil_r.
    split; [done|]. by intros s m ?%elem_of_nil.
  - rewrite dispatch_throw by done. exists []. simpl. rewrite app_nil_r.
    split; [done|]. by intros s m ?%elem_of_nil.
Qed.

Lemma dispatch_storage_eq N d r :
  storage_of (world (dispatch clock N d r).2) d =
    MyDurableObject.set_amount_of_pages N (storage_of (world r) d).
Proof.
  destruct (dispatch_outcomes N) as [Hok|[Hrefused|Hthrow]].
  - rewrite dispatch_ok by done. cbn [snd world].
    by rewrite storage_of_submit, storage_of_tick, storage_of_call_eq.
  - rewrite dispatch_refused by done. cbn [snd world].
    by rewrite storage_of_tick, storage_of_call_eq.
  - rewrite dispatch_throw by done. cbn [snd world].
    by rewrite storage_of_call_eq.
Qed.

Lemma dispatch_storage_ne N d d' r :
  d' ≠ d →
  storage_of (world (dispatch clock N d' r).2) d = storage_of (world r) d.
Proof.
  intros Hne. destruct (dispatch_outcomes N) as [Hok|[Hrefused|Hthrow]].
  - rewrite dispatch_ok by done. cbn [snd world].
    by rewrite storage_of_submit, storage_of_tick, storage_of_call_ne.
  - rewrite dispatch_refused by done. cbn [snd world].
    by rewrite storage_of_tick, storage_of_call_ne.
  - rewrite dispatch_throw by done. cbn [snd world].
    by rewrite storage_of_call_ne.
Qed.

Lemma reachable_numbered d N r :
  reachable clock env d N r → numbered_within d N r.
Proof.
  induction 1 as [r Hfresh Hnew|r ex batch _ IH Hin|r N' d' _ IH Hne|r q _ IH].
  - destruct (dispatch_channel N d r) as (extra & Hext & Hpages). split.
    + intros m Hm Ht Hd.
      apply (in_channel_app _ _ _ _ Hext) in Hm as [Hm|(s & Hs & Hm)].
      * by destruct (Hnew m Hm).
      * by destruct (Hpages s m Hs Hm) as (_ & _ & ?).
    + intros p. rewrite dispatch_storage_eq, Hfresh.
      by intros ?%not_elem_of_empty.
  - by apply queue_numbered.
  - destruct IH as [Hch Hst].
    destruct (dispatch_channel N' d' r) as (extra & Hext & Hpages). split.
    + intros m Hm Ht Hd.
      apply (in_channel_app _ _ _ _ Hext) in Hm as [Hm|(s & Hs & Hm)].
      * by apply Hch.
      * destruct (Hpages s m Hs Hm) as (_ & Hd' & _). congruence.
    + intros p. rewrite dispatch_storage_ne by done. apply Hst.
  - by rewrite status_run.
Qed.

End Reachable.

Lemma start_has_no_items m : ¬ in_channel m (world start).
Proof. by intros (s & ?%elem_of_nil & _). Qed.

(** The claim of C7 fails for a negative size, which [/send_to_queue] lets
    through ([?amount=-5]): the job is dispatched with size [-5], no page is
    finished, and 0 pages exceed [-5]. *)
Lemma reachable_within_counterexample :
  requested_amount (Some "-5") = -5 ∧
  reachable demo_clock demo_env "doc" (-5)
    (dispatch demo_clock (-5) "doc" start).2 ∧
  ¬ pages_within "doc" (-5) (dispatch demo_clock (-5) "doc" start).2.
Proof.
  split; [reflexivity|]. split.
  - apply reach_dispatch; [reflexivity|].
    intros m Hm. by destruct (start_has_no_items m).
  - intros [_ Hsize]. lia.
Qed.

(** C7, amended. For every size [N >= 0] and every state reachable from the
    dispatch of a fresh document with size [N] by deliveries of items from
    the channel (any order, any duplication), dispatches of other documents
    and status queries, the finished pages of the document are within
    [1..N] and there are at most [N] of them. *)
Theorem reachable_within clock env d N r :
  0 ≤ N →
  reachable clock env d N r →
  pages_within d N r.
Proof.
  intros HN [_ Hst]%reachable_numbered. split; [done|].
  by apply size_within.
Qed.

Lemma reachable_within_witness :
  pages_within "doc" 2
    (queue demo_clock demo_env "a" [demo_page 0; demo_page 0] demo_run).2.
Proof.
  apply (reachable_within demo_clock demo_env "doc" 2).
  - lia.
  - apply reach_queue.
    + apply (reach_dispatch demo_clock demo_env "doc" 2 start); [reflexivity|].
      intros m Hm. by destruct (start_has_no_items m).
    + intros m Hm. exists (SendBatch [demo_page 0; demo_page 1]).
      split; [apply list_elem_of_In; left; reflexivity|].
      apply list_elem_of_In. apply list_elem_of_In in Hm.
      simpl in *. tauto.
Defined.

(** ** Concurrent consumers *)

Section WorkerAlone.
Variable clock : nat → Z.
Variable env : Env.

(** A consumer that runs alone does what [on_message] does. *)
Lemma run_worker_alone ex m r :
  ∃ b,
    run_worker clock env 5%nat {| execution := ex; item := m; pc := AtStart |} r =
      (Ok {| execution := ex; item := m; pc := Finished b |},
       (on_message clock env ex m r).2).
Proof.
  destruct (type m) eqn:Ht.
  - destruct (truthy (page m)) eqn:Htr.
    + rewrite (on_message_record clock env ex m r Ht Htr). cbv zeta.
      unfold run_worker, worker_step, at_pc. unfold_m. simpl.
      rewrite Ht, Htr. simpl.
      destruct (MyDurableObject.is_finished _); simpl.
      * exists true. simpl.
        by rewrite <- !app_assoc.
      * exists false. 
        by rewrite <- !app_assoc.
    + rewrite (on_message_skip clock env ex m r Ht Htr).
      exists false. unfold run_worker, worker_step, at_pc. unfold_m. simpl.
      rewrite Ht, Htr. simpl. by rewrite <- !app_assoc.
  - rewrite (on_message_end clock env ex m r Ht).
    exists false. unfold run_worker, worker_step, at_pc. unfold_m. simpl.
    by rewrite Ht.
Qed.

End WorkerAlone.

(** C2. Two consumers handle the two pages of the demo job concurrently, one
    page each. Both record their page before either checks; then both
    completion checks succeed, and both consumers send a terminal item and
    delete the state: two of the two callers see the completion, not exactly
    one. *)
Lemma concurrent_double_completion :
  ∃ ws r',
    run_schedule demo_clock demo_env [0; 1; 0; 1; 0; 1; 0; 1; 0; 1]%nat
      (workers_of "doc" 2 1000) demo_run = (Ok ws, r') ∧
    pc <$> ws = [Finished true; Finished true] ∧
    observers ws = 2%nat ∧
    count_events (observes "doc") (history r') = 2%nat ∧
    count_events (terminal "doc") (history r') = 2%nat ∧
    count_events (destroys "doc") (history r') = 2%nat.
Proof. eexists _, _. vm_compute. done. Qed.

(** *** At least one consumer sees the completion *)

Lemma workers_of_job d N now : 0 ≤ N → job_workers d N (workers_of d N now).
Proof.
  intros HN. unfold workers_of. split.
  - rewrite length_fmap, length_seq. lia.
  - intros i wk Hi. rewrite list_lookup_fmap in Hi.
    destruct (seq 0 (Z.to_nat N) !! i) as [j|] eqn:Hj; [|done].
    apply lookup_seq in Hj as [-> _]. simpl in Hi. injection Hi as <-. done.
Qed.

Lemma job_workers_insert d N ws i wk c :
  job_workers d N ws → ws !! i = Some wk →
  job_workers d N (<[i := at_pc wk c]> ws).
Proof.
  intros [Hlen Hitems] Hi. split; [by rewrite length_insert|].
  intros j wk' Hj. destruct (decide (i = j)) as [<-|Hne].
  - rewrite list_lookup_insert_eq in Hj by (by eapply lookup_lt_Some).
    injection Hj as <-. simpl. by apply Hitems.
  - rewrite list_lookup_insert_ne in Hj by done. by apply Hitems.
Qed.

Lemma someone_saw_insert (ws : list Worker) i wk wk' :
  ws !! i = Some wk →
  (saw_completion wk = true → saw_completion wk' = true) →
  someone_saw ws → someone_saw (<[i := wk']> ws).
Proof.
  intros Hi Hkeep (j & wk0 & Hj & Hsaw). destruct (decide (i = j)) as [<-|Hne].
  - exists i, wk'. rewrite list_lookup_insert_eq by (by eapply lookup_lt_Some).
    split; [done|]. apply Hkeep. congruence.
  - exists j, wk0. by rewrite list_lookup_insert_ne.
Qed.

Lemma recorded_insert_same (ws : list Worker) i wk wk' x :
  ws !! i = Some wk → recorded (pc wk') = recorded (pc wk) →
  (∃ j wk0, <[i := wk']> ws !! j = Some wk0 ∧ recorded (pc wk0) = true ∧
            x = Z.of_nat j + 1) ↔
  (∃ j wk0, ws !! j = Some wk0 ∧ recorded (pc wk0) = true ∧
            x = Z.of_nat j + 1).
Proof.
  intros Hi Hrec. split; intros (j & wk0 & Hj & Hr & Hx);
    destruct (decide (i = j)) as [<-|Hne].
  - rewrite list_lookup_insert_eq in Hj by (by eapply lookup_lt_Some).
    injection Hj as <-. exists i, wk. rewrite <- Hrec. done.
  - rewrite list_lookup_insert_ne in Hj by done. by exists j, wk0.
  - exists i, wk'. rewrite list_lookup_insert_eq by (by eapply lookup_lt_Some).
    rewrite Hrec. split; [done|]. split; [congruence|done].
  - exists j, wk0. by rewrite list_lookup_insert_ne.
Qed.

(** When every consumer has recorded, the object holds all [N] pages. *)
Lemma all_recorded_size d N (ws : list Worker) (S : gset Z) :
  job_workers d N ws →
  (∀ x, x ∈ S ↔ ∃ i wk, ws !! i = Some wk ∧ recorded (pc wk) = true ∧
                        x = Z.of_nat i + 1) →
  Forall (λ wk, recorded (pc wk) = true) ws →
  Z.of_nat (size S) = N.
Proof.
  intros [Hlen _] HS Hall. assert (0 ≤ N) by lia.
  apply Z.le_antisymm.
  - apply size_within; [done|]. intros x (i & wk & Hi & _ & ->)%HS.
    apply lookup_lt_Some in Hi. lia.
  - apply size_covering; [done|]. intros x Hx. apply HS.
    destruct (lookup_lt_is_Some_2 ws (Z.to_nat (x - 1))) as [wk Hi]; [lia|].
    exists (Z.to_nat (x - 1)), wk. split; [done|]. split; [|lia].
    rewrite Forall_forall in Hall. apply Hall.
    by eapply list_elem_of_lookup_2.
Qed.

Lemma someone_not_recorded (ws : list Worker) :
  ¬ Forall (λ wk, recorded (pc wk) = true) ws →
  ∃ j wk, ws !! j = Some wk ∧ recorded (pc wk) = false.
Proof.
  intros Hnot. apply not_Forall_Exists in Hnot; [|apply _].
  apply Exists_exists in Hnot as (wk & Hin & Hrec).
  apply list_elem_of_lookup in Hin as [j Hj]. exists j, wk. split; [done|].
  simpl in Hrec. by destruct (recorded (pc wk)).
Qed.

Section Race.
Variable clock : nat → Z.
Variable env : Env.

Local Arguments storage_of : simpl never.
Local Arguments call : simpl never.

Lemma schedule_step_invariant d N i ws r :
  1 ≤ N →
  race_invariant d N ws r →
  ∃ ws' r',
    schedule_step clock env i ws r = (Ok ws', r') ∧
    race_invariant d N ws' r'.
Proof.
  intros HN [Hjob Hdyn]. unfold schedule_step.
  destruct (ws !! i) as [wk|] eqn:Hi; [|by exists ws, r].
  pose proof Hjob as [Hlen Hitems].
  destruct (Hitems i wk Hi) as (Ht & Hd & Hp).
  assert (truthy (page (item wk)) = true) as Htr.
  { rewrite Hp. simpl. apply negb_true_iff, Z.eqb_neq. lia. }
  pose proof (lookup_lt_Some _ _ _ Hi) as Hlt.
  unfold worker_step.
  destruct (pc wk) eqn:Hpc.
  - (* the delay and the log line *)
    rewrite Ht, Htr. unfold_m. simpl. eexists _, _. split; [done|].
    split; [by apply job_workers_insert|].
    destruct Hdyn as [Hsaw|(Ha & HS & Hw)].
    + left. eapply someone_saw_insert; [done| |done].
      unfold saw_completion. by rewrite Hpc.
    + right. split; [done|]. split.
      * intros x. rewrite (HS x). symmetry.
        apply (recorded_insert_same ws i wk); [done|]. simpl. by rewrite Hpc.
      * exists i, (at_pc wk AtRecord).
        by rewrite list_lookup_insert_eq.
  - (* finished_page *)
    unfold_m. simpl. eexists _, _. split; [done|].
    split; [by apply job_workers_insert|].
    destruct Hdyn as [Hsaw|(Ha & HS & Hw)].
    + left. eapply someone_saw_insert; [done| |done].
      unfold saw_completion. by rewrite Hpc.
    + right. unfold undecided. cbn [world]. rewrite Hd, Hp. simpl.
      rewrite storage_of_call_eq.
      split; [done|]. split.
      * intros x. unfold MyDurableObject.get_finished_pages. simpl.
        rewrite elem_of_union, elem_of_singleton.
        fold (MyDurableObject.get_finished_pages (storage_of (world r) d)).
        rewrite (HS x). split.
        -- intros [(j & wk0 & Hj & Hr & Hx)| ->].
           ++ exists j, wk0. rewrite list_lookup_insert_ne; [done|].
              intros <-. rewrite Hi in Hj. injection Hj as <-.
              by rewrite Hpc in Hr.
           ++ exists i, (at_pc wk AtCheck).
              by rewrite list_lookup_insert_eq.
        -- intros (j & wk0 & Hj & Hr & Hx).
           destruct (decide (i = j)) as [<-|Hne]; [by right|].
           rewrite list_lookup_insert_ne in Hj by done.
           left. by exists j, wk0.
      * exists i, (at_pc wk AtCheck). by rewrite list_lookup_insert_eq.
  - (* is_finished *)
    unfold_m. simpl. eexists _, _. split; [done|]. rewrite Hd. simpl.
    split; [by apply job_workers_insert|].
    destruct Hdyn as [Hsaw|(Ha & HS & Hw)].
    + left. eapply someone_saw_insert; [done| |done].
      unfold saw_completion. by rewrite Hpc.
    + destruct (MyDurableObject.is_finished (storage_of (world r) d))
        eqn:Hfin.
      * left. exists i, (at_pc wk AtEmit).
        by rewrite list_lookup_insert_eq.
      * right. split; [done|]. split.
        -- intros x. rewrite (HS x). symmetry.
           apply (recorded_insert_same ws i wk); [done|]. simpl. by rewrite Hpc.
        -- destruct (decide (Forall (λ wk, recorded (pc wk) = true) ws))
             as [Hall|Hnot].
           ++ exfalso. pose proof (all_recorded_size d N ws _ Hjob HS Hall) as Hsz.
              unfold MyDurableObject.is_finished in Hfin.
              rewrite Ha, number_or_Some_nonzero in Hfin by lia.
              by apply bool_decide_eq_false in Hfin.
           ++ destruct (someone_not_recorded ws Hnot) as (j & wk0 & Hj & Hr).
              exists j, wk0. split.
              ** rewrite list_lookup_insert_ne; [done|].
                 intros <-. rewrite Hi in Hj. injection Hj as <-.
                 by rewrite Hpc in Hr.
              ** by destruct (pc wk0).
  - (* send *)
    unfold_m. simpl. eexists _, _. split; [done|].
    split; [by apply job_workers_insert|]. left.
    apply (someone_saw_insert ws i wk); [done..|].
    exists i, wk. split; [done|]. unfold saw_completion. by rewrite Hpc.
  - (* delete *)
    unfold_m. simpl. eexists _, _. split; [done|].
    split; [by apply job_workers_insert|]. left.
    apply (someone_saw_insert ws i wk); [done..|].
    exists i, wk. split; [done|]. unfold saw_completion. by rewrite Hpc.
  - (* nothing left to do *)
    unfold_m. simpl. exists (<[i := wk]> ws), r. split; [by destruct r|].
    by rewrite list_insert_id.
Qed.

Lemma run_schedule_invariant d N schedule ws r :
  1 ≤ N →
  race_invariant d N ws r →
  ∃ ws' r',
    run_schedule clock env schedule ws r = (Ok ws', r') ∧
    race_invariant d N ws' r'.
Proof.
  intros HN. revert ws r.
  induction schedule as [|i schedule IH]; intros ws r Hinv.
  - by exists ws, r.
  - destruct (schedule_step_invariant d N i ws r HN Hinv)
      as (ws1 & r1 & Hstep & Hinv1).
    destruct (IH ws1 r1 Hinv1) as (ws' & r' & Hrun & Hinv').
    exists ws', r'. split; [|done].
    simpl. unfold mbind, M_bind. by rewrite Hstep.
Qed.

End Race.

Lemma observers_pos (ws : list Worker) : someone_saw ws → (1 ≤ observers ws)%nat.
Proof.
  intros (i & wk & Hi & Hsaw). unfold observers.
  assert (In wk (List.filter saw_completion ws)) as Hin.
  { apply List.filter_In. split; [|done].
    by apply list_elem_of_In, list_elem_of_lookup_2 with i. }
  destruct (List.filter saw_completion ws); [done|simpl; lia].
Qed.

(** * Further properties of the handlers *)

(** ** Items that do not concern a document *)

Section Isolation.
Variable clock : nat → Z.
Variable env : Env.

Lemma queue_unrecorded d ex batch r :
  Forall (λ m, recorded_by d m = None) batch →
  ∃ tr r',
    queue clock env ex batch r = (Ok tt, r') ∧
    history r' = history r ++ tr ∧
    storage_of (world r') d = storage_of (world r) d ∧
    completions d tr 0.
Proof.
  revert r. induction batch as [|m batch IH]; intros r Hall.
  - exists [], r. by rewrite app_nil_r.
  - apply Forall_cons in Hall as [Hm Hall].
    destruct (on_message_doc clock env ex d m r) as (tr1 & r1 & Hrun & Hh & Hd).
    rewrite Hm in Hd. destruct Hd as [Hst Hc].
    destruct (IH r1 Hall) as (tr2 & r2 & Hq & Hh2 & Hst2 & Hc2).
    exists (tr1 ++ tr2), r2. rewrite (queue_cons _ _ _ _ _ _ _ Hrun).
    split; [done|]. split; [by rewrite Hh2, Hh, app_assoc|].
    split; [congruence|]. apply (completions_app d _ _ 0 0); done.
Qed.

End Isolation.

(** X1. Documents are independent: a batch in which no item carries the
    identifier [d] leaves the stored state of [d] as it was and produces no
    completion check, terminal item or deletion for [d]. *)
Theorem queue_other_documents clock env ex d batch r :
  Forall (λ m, document_id m ≠ d) batch →
  ∃ tr r',
    queue clock env ex batch r = (Ok tt, r') ∧
    history r' = history r ++ tr ∧
    storage_of (world r') d = storage_of (world r) d ∧
    count_events (observes d) tr = 0%nat ∧
    count_events (terminal d) tr = 0%nat ∧
    count_events (destroys d) tr = 0%nat.
Proof.
  intros Hall. apply queue_unrecorded.
  eapply Forall_impl; [exact Hall|]. intros m Hm. simpl in Hm.
  apply recorded_by_None. auto.
Qed.

Lemma queue_other_documents_witness :
  ∃ tr r',
    queue demo_clock demo_env "a" [other_page; end_message other_page] demo_run
      = (Ok tt, r') ∧
    history r' = history demo_run ++ tr ∧
    storage_of (world r') "doc" = storage_of (world demo_run) "doc" ∧
    count_events (observes "doc") tr = 0%nat ∧
    count_events (terminal "doc") tr = 0%nat ∧
    count_events (destroys "doc") tr = 0%nat.
Proof.
  apply (queue_other_documents demo_clock demo_env "a" "doc").
  repeat constructor; discriminate.
Defined.

(** ** What a batch does to a job that is not deleted *)

Lemma record_step_kept p st :
  (record_step p st).2 = false →
  (record_step p st).1 = MyDurableObject.finished_page p st.
Proof. unfold record_step. by destruct (MyDurableObject.is_finished _). Qed.

Lemma record_step_fired p st :
  (record_step p st).2 = true →
  (record_step p st).1 = empty_storage ∧
  MyDurableObject.is_finished (MyDurableObject.finished_page p st) = true.
Proof. unfold record_step. by destruct (MyDurableObject.is_finished _). Qed.

Lemma count_events_app_0 P tr1 tr2 :
  count_events P (tr1 ++ tr2) = 0%nat →
  count_events P tr1 = 0%nat ∧ count_events P tr2 = 0%nat.
Proof. rewrite count_events_app. lia. Qed.

(** X2. As long as the state of document [d] is not deleted during a batch,
    the worker only adds to it: the stored amount is unchanged and the
    finished pages afterwards are the earlier ones together with the
    non-zero page numbers of the batch's page items for [d], whatever their
    order and multiplicity. *)
Theorem queue_accumulates clock env ex d batch r :
  ∃ tr r',
    queue clock env ex batch r = (Ok tt, r') ∧
    history r' = history r ++ tr ∧
    (count_events (destroys d) tr = 0%nat →
     amount_of_pages (storage_of (world r') d) =
       amount_of_pages (storage_of (world r) d) ∧
     ∀ p, p ∈ MyDurableObject.get_finished_pages (storage_of (world r') d) ↔
          p ∈ MyDurableObject.get_finished_pages (storage_of (world r) d) ∨
          ∃ m, m ∈ batch ∧ type m = TPage ∧ document_id m = d ∧
               page m = Some p ∧ p ≠ 0).
Proof.
  revert r. induction batch as [|m batch IH]; intros r.
  - exists [], r. rewrite app_nil_r. split; [done|]. split; [done|].
    intros _. split; [done|]. intros p. split; [auto|].
    intros [?|(m & ?%elem_of_nil & _)]; done.
  - destruct (on_message_doc clock env ex d m r) as (tr1 & r1 & Hrun & Hh & Hd).
    destruct (IH r1) as (tr2 & r2 & Hq & Hh2 & Hkeep).
    exists (tr1 ++ tr2), r2. rewrite (queue_cons _ _ _ _ _ _ _ Hrun).
    split; [done|]. split; [by rewrite Hh2, Hh, app_assoc|].
    intros [Hz1 Hz2]%count_events_app_0.
    destruct (Hkeep Hz2) as [Ha2 Hp2].
    destruct (recorded_by d m) as [p0|] eqn:Hrec.
    + destruct Hd as [Hst (_ & _ & Hdel)].
      destruct (record_step p0 (storage_of (world r) d)).2 eqn:Hfired;
        [congruence|].
      rewrite (record_step_kept _ _ Hfired) in Hst.
      apply recorded_by_Some in Hrec as (Ht & Hdoc & Hpg & Hnz).
      split; [by rewrite Ha2, Hst|].
      intros p. rewrite Hp2, Hst.
      unfold MyDurableObject.get_finished_pages at 1. simpl.
      rewrite elem_of_union, elem_of_singleton.
      fold (MyDurableObject.get_finished_pages (storage_of (world r) d)).
      split.
      * intros [[?| ->]|(m' & Hin & ?)]; [by left| |].
        -- right. exists m. split; [left|done].
        -- right. exists m'. split; [by right|done].
      * intros [?|(m' & [->|Hin]%elem_of_cons & Ht' & Hd' & Hp' & Hn')].
        -- by left; left.
        -- left; right. congruence.
        -- right. by exists m'.
    + destruct Hd as [Hst _]. split; [by rewrite Ha2, Hst|].
      intros p. rewrite Hp2, Hst. split.
      * intros [?|(m' & Hin & ?)]; [by left|].
        right. exists m'. split; [by right|done].
      * intros [?|(m' & [->|Hin]%elem_of_cons & Ht' & Hd' & Hp' & Hn')];
          [by left| |right; by exists m'].
        exfalso. assert (recorded_by d m = Some p) as Hs
          by (by apply recorded_by_Some).
        congruence.
Qed.

(** ** When a job completes *)

Lemma record_step_fired_size N p st :
  pending N st → (record_step p st).2 = true →
  Z.of_nat (size (MyDurableObject.get_finished_pages st ∪ {[p]})) = N.
Proof.
  intros [Ha Hs] [_ Hfin]%record_step_fired.
  unfold MyDurableObject.is_finished in Hfin. simpl in Hfin.
  rewrite Ha, number_or_Some_nonzero in Hfin by lia.
  by apply bool_decide_eq_true in Hfin.
Qed.

Lemma size_union_mono_l (S T U : gset Z) :
  T ⊆ U → (size (S ∪ T) ≤ size (S ∪ U))%nat.
Proof. intros. by apply subseteq_size, union_mono_l. Qed.

Lemma size_list_to_set_length (ps : list Z) :
  (size (list_to_set ps : gset Z) ≤ length ps)%nat.
Proof.
  induction ps as [|p ps IH].
  { change (size (∅ : gset Z) ≤ 0)%nat. by rewrite size_empty. }
  change (size ({[p]} ∪ (list_to_set ps : gset Z)) ≤ S (length ps))%nat.
  rewrite size_union_alt, size_singleton.
  assert (size ((list_to_set ps : gset Z) ∖ {[p]}) ≤ size (list_to_set ps : gset Z))%nat
    as Hle by (apply subseteq_size, subseteq_difference_l; done).
  lia.
Qed.

Lemma delivered_cons ex batch deliveries :
  delivered ((ex, batch) :: deliveries) = batch ++ delivered deliveries.
Proof. done. Qed.

Section Below.
Variable clock : nat → Z.
Variable env : Env.

Lemma queue_below d N ex batch r :
  pending N (storage_of (world r) d) →
  Z.of_nat (size (MyDurableObject.get_finished_pages (storage_of (world r) d)
                  ∪ pages_of d batch)) < N →
  ∃ tr r',
    queue clock env ex batch r = (Ok tt, r') ∧
    history r' = history r ++ tr ∧
    pending N (storage_of (world r') d) ∧
    MyDurableObject.get_finished_pages (storage_of (world r') d) =
      MyDurableObject.get_finished_pages (storage_of (world r) d)
      ∪ pages_of d batch ∧
    completions d tr 0.
Proof.
  revert r. induction batch as [|m batch IH]; intros r Hp Hlt.
  - exists [], r. rewrite app_nil_r, pages_of_nil, union_empty_r_L. done.
  - destruct (on_message_doc clock env ex d m r) as (tr1 & r1 & Hrun & Hh & Hd).
    rewrite (queue_cons _ _ _ _ _ _ _ Hrun). rewrite pages_of_cons in *.
    destruct (recorded_by d m) as [p|].
    + destruct Hd as [Hst Hc].
      destruct (record_step p (storage_of (world r) d)).2 eqn:Hfired.
      * exfalso. pose proof (record_step_fired_size N p _ Hp Hfired) as Hsz.
        pose proof (size_union_mono_l
          (MyDurableObject.get_finished_pages (storage_of (world r) d))
          {[p]} ({[p]} ∪ pages_of d batch) (union_subseteq_l _ _)). lia.
      * destruct (record_step_pending N p _ Hp) as [(_ & Hp1 & Hs1)|[Hf _]];
          [|congruence].
        rewrite <- Hst in Hp1, Hs1.
        destruct (IH r1 Hp1) as (tr2 & r2 & Hq & Hh2 & Hp2 & Hs2 & Hc2).
        { rewrite Hs1. by rewrite <- (assoc_L (∪)). }
        exists (tr1 ++ tr2), r2. split; [done|].
        split; [by rewrite Hh2, Hh, app_assoc|]. split; [done|].
        split; [rewrite Hs2, Hs1; by rewrite (assoc_L (∪))|].
        apply (completions_app d _ _ 0 0); done.
    + destruct Hd as [Hst Hc]. rewrite <- Hst in *.
      destruct (IH r1 Hp Hlt) as (tr2 & r2 & Hq & Hh2 & Hp2 & Hs2 & Hc2).
      exists (tr1 ++ tr2), r2. split; [done|].
      split; [by rewrite Hh2, Hh, app_assoc|]. split; [done|].
      split; [done|]. apply (completions_app d _ _ 0 0); done.
Qed.

Lemma consume_below d N deliveries r :
  pending N (storage_of (world r) d) →
  Z.of_nat (size (MyDurableObject.get_finished_pages (storage_of (world r) d)
                  ∪ pages_of d (delivered deliveries))) < N →
  ∃ tr r',
    consume clock env deliveries r = (Ok tt, r') ∧
    history r' = history r ++ tr ∧
    pending N (storage_of (world r') d) ∧
    MyDurableObject.get_finished_pages (storage_of (world r') d) =
      MyDurableObject.get_finished_pages (storage_of (world r) d)
      ∪ pages_of d (delivered deliveries) ∧
    completions d tr 0.
Proof.
  revert r. induction deliveries as [|[ex batch] deliveries IH]; intros r Hp Hlt.
  - exists [], r. rewrite app_nil_r. unfold delivered. simpl.
    rewrite pages_of_nil, union_empty_r_L. done.
  - rewrite delivered_cons, pages_of_app in Hlt |- *.
    destruct (queue_below d N ex batch r Hp)
      as (tr1 & r1 & Hq & Hh & Hp1 & Hs1 & Hc1).
    { pose proof (size_union_mono_l
        (MyDurableObject.get_finished_pages (storage_of (world r) d))
        (pages_of d batch) (pages_of d batch ∪ pages_of d (delivered deliveries))
        (union_subseteq_l _ _)). lia. }
    destruct (IH r1 Hp1) as (tr2 & r2 & Hq2 & Hh2 & Hp2 & Hs2 & Hc2).
    { rewrite Hs1. by rewrite <- (assoc_L (∪)). }
    exists (tr1 ++ tr2), r2. rewrite (consume_cons _ _ _ _ _ _ _ Hq).
    split; [done|]. split; [by rewrite Hh2, Hh, app_assoc|]. split; [done|].
    split; [rewrite Hs2, Hs1; by rewrite (assoc_L (∪))|].
    apply (completions_app d _ _ 0 0); done.
Qed.

End Below.

(** X3. No early completion. For a job initialized with [N >= 1] pages, if
    the non-zero page numbers carried by the delivered page items of the
    document all lie in a list of fewer than [N] numbers, no completion is
    observed, no terminal item is sent, nothing is deleted, and the job still
    stores its size. *)
Theorem no_completion_before_all_pages clock env d N deliveries r (ps : list Z) :
  1 ≤ N →
  storage_of (world r) d = initialized N →
  (∀ m p, m ∈ delivered deliveries →
     type m = TPage → document_id m = d → page m = Some p → p ≠ 0 → p ∈ ps) →
  Z.of_nat (length ps) < N →
  ∃ tr r',
    consume clock env deliveries r = (Ok tt, r') ∧
    history r' = history r ++ tr ∧
    count_events (observes d) tr = 0%nat ∧
    count_events (terminal d) tr = 0%nat ∧
    count_events (destroys d) tr = 0%nat ∧
    amount_of_pages (storage_of (world r') d) = Some N ∧
    MyDurableObject.is_finished (storage_of (world r') d) = false.
Proof.
  intros HN Hinit Hps Hlen.
  assert (pending N (storage_of (world r) d)) as Hp
    by (rewrite Hinit; by apply initialized_pending).
  destruct (consume_below clock env d N deliveries r Hp)
    as (tr & r' & Hrun & Hh & [Ha Hs] & _ & Ho & Ht & Hd).
  { rewrite Hinit.
    change (MyDurableObject.get_finished_pages (initialized N)) with (∅ : gset Z).
    rewrite union_empty_l_L.
    assert (pages_of d (delivered deliveries) ⊆ list_to_set ps) as Hsub.
    { intros p (m & Hm & (Ht & Hd & Hpg & Hnz)%recorded_by_Some)%elem_of_pages_of.
      apply elem_of_list_to_set. by eapply Hps. }
    apply subseteq_size in Hsub.
    pose proof (size_list_to_set_length ps). lia. }
  exists tr, r'. repeat split; try done.
  unfold MyDurableObject.is_finished.
  rewrite Ha, number_or_Some_nonzero by lia.
  apply bool_decide_eq_false. unfold MyDurableObject.get_finished_pages in Hs. lia.
Qed.

Lemma no_completion_before_all_pages_witness :
  ∃ tr r',
    consume demo_clock demo_env [("a", [demo_page 1; demo_page 1]); ("b", [demo_page 1])]
      demo_run = (Ok tt, r') ∧
    history r' = history demo_run ++ tr ∧
    count_events (observes "doc") tr = 0%nat ∧
    count_events (terminal "doc") tr = 0%nat ∧
    count_events (destroys "doc") tr = 0%nat ∧
    amount_of_pages (storage_of (world r') "doc") = Some 2 ∧
    MyDurableObject.is_finished (storage_of (world r') "doc") = false.
Proof.
  apply (no_completion_before_all_pages demo_clock demo_env "doc" 2 _ _ [2]).
  - lia.
  - vm_compute. reflexivity.
  - intros m p Hm _ _ Hp _. apply list_elem_of_In in Hm. simpl in Hm.
    apply list_elem_of_In. simpl.
    destruct Hm as [<-|[<-|[<-|[]]]]; simpl in Hp; injection Hp as <-; auto.
  - simpl. lia.
Defined.

(** X4. Page numbers are not checked against the job: a job initialized with
    [N >= 1] pages completes, exactly once, as soon as page items with [N]
    distinct non-zero page numbers were delivered for it, whatever those
    numbers are. *)
Theorem completion_counts_distinct_pages clock env d N deliveries r (ps : list Z) :
  1 ≤ N →
  storage_of (world r) d = initialized N →
  NoDup ps →
  N ≤ Z.of_nat (length ps) →
  (∀ p, p ∈ ps →
     p ≠ 0 ∧
     ∃ m, m ∈ delivered deliveries ∧
          type m = TPage ∧ document_id m = d ∧ page m = Some p) →
  ∃ tr r',
    consume clock env deliveries r = (Ok tt, r') ∧
    history r' = history r ++ tr ∧
    count_events (observes d) tr = 1%nat ∧
    count_events (terminal d) tr = 1%nat ∧
    count_events (destroys d) tr = 1%nat.
Proof.
  intros HN Hinit Hnd Hlen Hps.
  assert (pending N (storage_of (world r) d)) as Hp
    by (rewrite Hinit; by apply initialized_pending).
  destruct (consume_pending clock env d N deliveries r Hp)
    as (tr & r' & Hrun & Hh & [([_ Hlt] & Hs & _)|[_ Hc]]).
  - exfalso.
    assert (list_to_set ps ⊆
              MyDurableObject.get_finished_pages (storage_of (world r') d))
      as Hsub.
    { intros p Hp'%elem_of_list_to_set. rewrite Hs.
      apply elem_of_union_r, elem_of_pages_of.
      destruct (Hps p Hp') as (Hnz & m & Hm & Ht & Hd & Hpg).
      exists m. split; [done|]. by apply recorded_by_Some. }
    apply subseteq_size in Hsub. rewrite size_list_to_set in Hsub by done. lia.
  - exists tr, r'. done.
Qed.

Lemma completion_counts_distinct_pages_witness :
  ∃ tr r',
    consume demo_clock demo_env [("a", [stray_page 7; stray_page (-3)])]
      demo_run = (Ok tt, r') ∧
    history r' = history demo_run ++ tr ∧
    count_events (observes "doc") tr = 1%nat ∧
    count_events (terminal "doc") tr = 1%nat ∧
    count_events (destroys "doc") tr = 1%nat.
Proof.
  apply (completion_counts_distinct_pages demo_clock demo_env "doc" 2 _ _ [7; -3]).
  - lia.
  - vm_compute. reflexivity.
  - repeat constructor; rewrite ?list_elem_of_In; simpl; intuition discriminate.
  - simpl. lia.
  - intros p Hp. apply list_elem_of_In in Hp. simpl in Hp.
    destruct Hp as [<-|[<-|[]]].
    + split; [discriminate|]. exists (stray_page 7). split; [|done].
      apply list_elem_of_In. simpl. auto.
    + split; [discriminate|]. exists (stray_page (-3)). split; [|done].
      apply list_elem_of_In. simpl. auto.
Defined.

(** ** From dispatch to completion *)



Section Exact.
Variable clock : nat → Z.
Variable env : Env.


End Exact.


Lemma string_or_id d : string_or (Some d) "" = d.
Proof. by destruct d. Qed.



(** ** Items delivered after the job was deleted *)

(** X6. A page item delivered for a document whose state is empty (the job
    was completed and deleted, or never dispatched) is recorded all the same:
    nothing is sent, the document gets a state with that single page and no
    size, [/status] now reports it unfinished with that page, and no later
    delivery ever completes it. *)
Theorem late_page_item clock env ex d m p r :
  storage_of (world r) d = empty_storage →
  type m = TPage → document_id m = d → page m = Some p → p ≠ 0 →
  ∃ r1,
    on_message clock env ex m r = (Ok tt, r1) ∧
    channel (world r1) = channel (world r) ∧
    storage_of (world r1) d =
      {| amount_of_pages := None; finished_pages := Some {[p]} |} ∧
    (status (Some d) r1).1 = Ok (Json false [p]) ∧
    ∀ ex' batch,
      ∃ tr r2,
        queue clock env ex' batch r1 = (Ok tt, r2) ∧
        history r2 = history r1 ++ tr ∧
        count_events (observes d) tr = 0%nat ∧
        count_events (terminal d) tr = 0%nat ∧
        count_events (destroys d) tr = 0%nat.
Proof.
  intros Hempty Ht Hd Hp Hnz.
  assert (truthy (page m) = true) as Htr.
  { rewrite Hp. simpl. by apply negb_true_iff, Z.eqb_neq. }
  pose proof (on_message_record clock env ex m r Ht Htr) as Hrun.
  cbv zeta in Hrun. rewrite Hd, Hp in Hrun. simpl in Hrun.
  rewrite storage_of_call_eq, Hempty in Hrun.
  assert (MyDurableObject.finished_page p empty_storage =
            {| amount_of_pages := None; finished_pages := Some {[p]} |}) as Hst.
  { unfold MyDurableObject.finished_page. simpl. by rewrite union_empty_l_L. }
  rewrite Hst in Hrun.
  assert (MyDurableObject.is_finished
            {| amount_of_pages := None; finished_pages := Some {[p]} |} = false)
    as Hfin.
  { change (bool_decide (Z.of_nat (size ({[p]} : gset Z)) = 0) = false).
    by rewrite size_singleton. }
  rewrite Hfin in Hrun. eexists. split; [exact Hrun|]. cbn [world].
  split; [done|]. rewrite storage_of_call_eq, Hempty, Hst.
  split; [done|]. split.
  - rewrite status_run. cbv zeta. cbn [world fst].
    rewrite string_or_id, storage_of_call_eq, Hempty, Hst, Hfin.
    change (MyDurableObject.get_finished_pages
              {| amount_of_pages := None; finished_pages := Some {[p]} |})
      with ({[p]} : gset Z).
    by rewrite elements_singleton.
  - intros ex' batch.
    destruct (queue_gone clock env d ex' batch
                {| world := call d (MyDurableObject.finished_page p) (world r);
                   history := history r ++ page_effects env ex m ++
                     [EvFinishedPage d p; EvIsFinished d false] |})
      as (tr & r2 & Hq & Hh & _ & Ho & Hte & Hde).
    { cbn [world]. by rewrite storage_of_call_eq, Hempty, Hst. }
    by exists tr, r2.
Qed.

Lemma late_page_item_witness :
  ∃ r1,
    on_message demo_clock demo_env "b" (demo_page 0) finished_run = (Ok tt, r1) ∧
    channel (world r1) = channel (world finished_run) ∧
    storage_of (world r1) "doc" =
      {| amount_of_pages := None; finished_pages := Some {[1]} |} ∧
    (status (Some "doc") r1).1 = Ok (Json false [1]) ∧
    ∀ ex' batch,
      ∃ tr r2,
        queue demo_clock demo_env ex' batch r1 = (Ok tt, r2) ∧
        history r2 = history r1 ++ tr ∧
        count_events (observes "doc") tr = 0%nat ∧
        count_events (terminal "doc") tr = 0%nat ∧
        count_events (destroys "doc") tr = 0%nat.
Proof.
  apply (late_page_item demo_clock demo_env "b" "doc" (demo_page 0) 1 finished_run).
  - vm_compute. reflexivity.
  - reflexivity.
  - reflexivity.
  - reflexivity.
  - discriminate.
Defined.

(** ** Sizes that no page count can reach *)

Lemma record_step_nonpositive N p st :
  amount_of_pages st = Some N → N ≤ 0 →
  (record_step p st).2 = false ∧
  amount_of_pages (record_step p st).1 = Some N.
Proof.
  intros Ha HN. unfold record_step, MyDurableObject.is_finished. simpl.
  pose proof (size_add_pos (default ∅ (finished_pages st)) p).
  rewrite bool_decide_eq_false_2; [done|].
  rewrite Ha. unfold number_or. destruct (Z.eqb_spec N 0); lia.
Qed.

Lemma ToLength_nonpositive N : N ≤ 0 → ToLength N = 0.
Proof. intros. unfold ToLength. destruct (Z.leb_spec N 0); [done|lia]. Qed.

Section Nonpositive.
Variable clock : nat → Z.
Variable env : Env.

Lemma queue_nonpositive d N ex batch r :
  amount_of_pages (storage_of (world r) d) = Some N → N ≤ 0 →
  ∃ tr r',
    queue clock env ex batch r = (Ok tt, r') ∧
    history r' = history r ++ tr ∧
    amount_of_pages (storage_of (world r') d) = Some N ∧
    completions d tr 0.
Proof.
  intros Ha HN. revert r Ha. induction batch as [|m batch IH]; intros r Ha.
  - exists [], r. by rewrite app_nil_r.
  - destruct (on_message_doc clock env ex d m r) as (tr1 & r1 & Hrun & Hh & Hd).
    assert (amount_of_pages (storage_of (world r1) d) = Some N ∧
            completions d tr1 0) as [Ha1 Hc1].
    { destruct (recorded_by d m) as [p|]; destruct Hd as [Hst Hc].
      - destruct (record_step_nonpositive N p _ Ha HN) as [Hf Ha'].
        rewrite Hf in Hc. by rewrite Hst.
      - by rewrite Hst. }
    destruct (IH r1 Ha1) as (tr2 & r2 & Hq & Hh2 & Ha2 & Hc2).
    exists (tr1 ++ tr2), r2. rewrite (queue_cons _ _ _ _ _ _ _ Hrun).
    split; [done|]. split; [by rewrite Hh2, Hh, app_assoc|].
    split; [done|]. apply (completions_app d _ _ 0 0); done.
Qed.

End Nonpositive.

(** X7. A request whose size parses to a negative number (of magnitude at
    most 2^53) creates a job that can never complete: whatever the handler
    answers, the negative size is stored for the document, and whatever is
    delivered afterwards, no completion is observed for the document and its
    size stays stored. *)
Theorem negative_size_never_completes clock env s n d r :
  parseInt s = Some n → - 2 ^ 53 ≤ n < 0 →
  amount_of_pages (storage_of (world (send_to_queue clock (Some s) d r).2) d)
    = Some n ∧
  ∀ ex batch,
    ∃ tr r2,
      queue clock env ex batch (send_to_queue clock (Some s) d r).2 = (Ok tt, r2) ∧
      history r2 = history (send_to_queue clock (Some s) d r).2 ++ tr ∧
      count_events (observes d) tr = 0%nat ∧
      count_events (terminal d) tr = 0%nat ∧
      count_events (destroys d) tr = 0%nat ∧
      amount_of_pages (storage_of (world r2) d) = Some n.
Proof.
  intros Hs Hn. unfold send_to_queue.
  rewrite (requested_amount_parsed s n Hs) by lia.
  assert (amount_of_pages (storage_of (world (dispatch clock n d r).2) d) = Some n)
    as Ha by (by rewrite dispatch_storage_eq).
  split; [done|]. intros ex batch.
  destruct (queue_nonpositive clock env d n ex batch (dispatch clock n d r).2 Ha)
    as (tr & r2 & Hq & Hh & Ha2 & Ho & Ht & Hd); [lia|].
  by exists tr, r2.
Qed.

Lemma negative_size_never_completes_witness :
  amount_of_pages
    (storage_of (world (send_to_queue demo_clock (Some "-5") "doc" start).2) "doc")
    = Some (-5) ∧
  ∀ ex batch,
    ∃ tr r2,
      queue demo_clock demo_env ex batch
        (send_to_queue demo_clock (Some "-5") "doc" start).2 = (Ok tt, r2) ∧
      history r2 =
        history (send_to_queue demo_clock (Some "-5") "doc" start).2 ++ tr ∧
      count_events (observes "doc") tr = 0%nat ∧
      count_events (terminal "doc") tr = 0%nat ∧
      count_events (destroys "doc") tr = 0%nat ∧
      amount_of_pages (storage_of (world r2) "doc") = Some (-5).
Proof.
  apply (negative_size_never_completes demo_clock demo_env "-5" (-5) "doc" start).
  - reflexivity.
  - lia.
Defined.

(** ** Sizes that [Array.from] refuses *)

(** X8. A request whose size parses to a number from [2^32] up to [2^53]
    fails: building the items throws a [RangeError] after the size was
    stored, so the document keeps that size while nothing is submitted to
    the queue and no finished page is touched. *)
Theorem huge_size_throws clock s n d r :
  parseInt s = Some n → 2 ^ 32 ≤ n ≤ 2 ^ 53 →
  ∃ r1,
    send_to_queue clock (Some s) d r = (Throw RangeError, r1) ∧
    amount_of_pages (storage_of (world r1) d) = Some n ∧
    finished_pages (storage_of (world r1) d) =
      finished_pages (storage_of (world r) d) ∧
    channel (world r1) = channel (world r) ∧
    history r1 = history r ++ [EvSetAmount d n].
Proof.
  intros Hs Hn. unfold send_to_queue.
  rewrite (requested_amount_parsed s n Hs) by lia.
  assert (2 ^ 32 ≤ ToLength n) as Hlen.
  { unfold ToLength. destruct (Z.leb_spec n 0); [lia|].
    assert (2 ^ 32 < 2 ^ 53 - 1) by done. lia. }
  rewrite dispatch_throw by done. eexists. split; [done|]. cbn [world history].
  by rewrite storage_of_call_eq.
Qed.

Lemma huge_size_throws_witness :
  ∃ r1,
    send_to_queue demo_clock (Some "4294967296") "doc" start =
      (Throw RangeError, r1) ∧
    amount_of_pages (storage_of (world r1) "doc") = Some 4294967296 ∧
    finished_pages (storage_of (world r1) "doc") =
      finished_pages (storage_of (world start) "doc") ∧
    channel (world r1) = channel (world start) ∧
    history r1 = history start ++ [EvSetAmount "doc" 4294967296].
Proof.
  apply (huge_size_throws demo_clock "4294967296" 4294967296 "doc" start).
  - reflexivity.
  - lia.
Defined.

(** ** What dispatch writes *)

(** X9. [dispatch] writes nothing but the size of its own document: whether
    it returns or throws, the document's finished pages are what they were
    (an identifier that is drawn twice keeps the pages recorded before), its
    size is the new one, and the state of every other document is
    untouched. *)
Theorem dispatch_writes_only_the_amount clock N d r :
  amount_of_pages (storage_of (world (dispatch clock N d r).2) d) = Some N ∧
  finished_pages (storage_of (world (dispatch clock N d r).2) d) =
    finished_pages (storage_of (world r) d) ∧
  ∀ d', d' ≠ d →
    storage_of (world (dispatch clock N d r).2) d' = storage_of (world r) d'.
Proof.
  rewrite dispatch_storage_eq. split; [done|]. split; [done|].
  intros d' Hne. by apply dispatch_storage_ne.
Qed.

(** ** Terminal items *)

Section EndItems.
Variable clock : nat → Z.
Variable env : Env.

Lemma queue_end_items_run ex batch r :
  Forall (λ m, type m = TEnd) batch →
  queue clock env ex batch r =
    (Ok tt,
     {| world := tick (length batch) (world r);
        history := history r ++
          imap (λ k m, EvLogEnd ex (document_id m)
                         (clock (date_reads (world r) + k)%nat - start_time m))
            batch |}).
Proof.
  revert r. induction batch as [|m batch IH]; intros r Hall.
  - rewrite tick_0, app_nil_r. by destruct r.
  - apply Forall_cons in Hall as [Hm Hall].
    rewrite (queue_cons _ _ _ _ _ _ _ (on_message_end clock env ex m r Hm)).
    rewrite IH by done. cbn [world history]. rewrite tick_tick.
    f_equal. f_equal. rewrite <- app_assoc. f_equal. simpl. f_equal.
    + by rewrite Nat.add_0_r.
    + apply imap_ext. intros k m' _. simpl. do 3 f_equal. lia.
Qed.

End EndItems.

(** X10. Terminal items are only logged. A batch of ['end'] items changes no
    stored state and submits nothing; for each item the worker reads the
    clock once and logs the time elapsed since the item's [start_time]. *)
Theorem queue_end_items clock env ex batch r :
  Forall (λ m, type m = TEnd) batch →
  ∃ r',
    queue clock env ex batch r = (Ok tt, r') ∧
    objects (world r') = objects (world r) ∧
    channel (world r') = channel (world r) ∧
    date_reads (world r') = (date_reads (world r) + length batch)%nat ∧
    history r' = history r ++
      imap (λ k m, EvLogEnd ex (document_id m)
                     (clock (date_reads (world r) + k)%nat - start_time m))
        batch.
Proof.
  intros Hall. eexists. split; [by apply queue_end_items_run|]. done.
Qed.

Lemma queue_end_items_witness :
  ∃ r',
    queue ticking_clock demo_env "a"
      [end_message (demo_page 0); end_message other_page] demo_run = (Ok tt, r') ∧
    objects (world r') = objects (world demo_run) ∧
    channel (world r') = channel (world demo_run) ∧
    date_reads (world r') = (date_reads (world demo_run) + 2)%nat ∧
    history r' = history demo_run ++
      [EvLogEnd "a" "doc" 2; EvLogEnd "a" "other" 998].
Proof.
  apply (queue_end_items ticking_clock demo_env "a"
           [end_message (demo_page 0); end_message other_page] demo_run).
  repeat constructor.
Defined.

(** ** What the worker submits *)

Section Submissions.
Variable clock : nat → Z.
Variable env : Env.

Lemma on_message_submits ex m r :
  ∃ r' extra,
    on_message clock env ex m r = (Ok tt, r') ∧
    channel (world r') = channel (world r) ++ extra ∧
    ∀ s, s ∈ extra →
      type m = TPage ∧ truthy (page m) = true ∧ s = Send (end_message m).
Proof.
  destruct (type m) eqn:Ht.
  - destruct (truthy (page m)) eqn:Htr.
    + pose proof (on_message_record clock env ex m r Ht Htr) as Heq.
      cbv zeta in Heq. destruct (MyDurableObject.is_finished _).
      * eexists _, [Send (end_message m)]. split; [exact Heq|].
        split; [done|]. by intros s ->%list_elem_of_singleton.
      * eexists _, []. split; [exact Heq|]. simpl. rewrite app_nil_r.
        split; [done|]. by intros s ?%elem_of_nil.
    + eexists _, []. split; [by apply on_message_skip|]. simpl.
      rewrite app_nil_r. split; [done|]. by intros s ?%elem_of_nil.
  - eexists _, []. split; [by apply on_message_end|]. simpl.
    rewrite app_nil_r. split; [done|]. by intros s ?%elem_of_nil.
Qed.

End Submissions.

(** X11. The worker submits nothing but terminal items of its own batch:
    whatever [queue] adds to the channel is a single [send] of an ['end']
    item that carries the [document_id] and the [start_time] of a page item
    of the batch with a non-zero page number, and nothing already on the
    channel is removed. *)
Theorem queue_submits_only_end_items clock env ex batch r :
  ∃ r' extra,
    queue clock env ex batch r = (Ok tt, r') ∧
    channel (world r') = channel (world r) ++ extra ∧
    ∀ s, s ∈ extra →
      ∃ m, m ∈ batch ∧ type m = TPage ∧ truthy (page m) = true ∧
           s = Send {| type := TEnd; start_time := start_time m;
                       document_id := document_id m;
                       page := None; total_pages := None |}.
Proof.
  revert r. induction batch as [|m batch IH]; intros r.
  - exists r, []. rewrite app_nil_r. split; [done|]. split; [done|].
    by intros s ?%elem_of_nil.
  - destruct (on_message_submits clock env ex m r) as (r1 & e1 & Hrun & Hch1 & He1).
    destruct (IH r1) as (r2 & e2 & Hq & Hch2 & He2).
    exists r2, (e1 ++ e2). rewrite (queue_cons _ _ _ _ _ _ _ Hrun).
    split; [done|]. split; [by rewrite Hch2, Hch1, app_assoc|].
    intros s [Hs|Hs]%elem_of_app.
    + destruct (He1 s Hs) as (Ht & Htr & ->). exists m. split; [left|done].
    + destruct (He2 s Hs) as (m' & Hm' & Hrest). exists m'. split; [by right|done].
Qed.

(** ** The status right after a dispatch *)

Lemma requested_amount_nonzero q : requested_amount q ≠ 0.
Proof.
  unfold requested_amount, number_or, defaultAmount.
  destruct (parseInt _) as [n|]; [|done].
  destruct (Z.eqb_spec n 0); done.
Qed.

(** X12. The size that [/send_to_queue] uses is never [0], so a job is never
    complete before a page is recorded: whatever the query, right after
    [/send_to_queue] on a document without state, [/status] reports the
    document unfinished with no pages, also when the handler threw. *)
Theorem status_after_send_to_queue clock q d r :
  storage_of (world r) d = empty_storage →
  requested_amount q ≠ 0 ∧
  (status (Some d) (send_to_queue clock q d r).2).1 = Ok (Json false []).
Proof.
  intros Hfresh. pose proof (requested_amount_nonzero q) as Hnz.
  split; [done|]. unfold send_to_queue. rewrite status_run. cbv zeta.
  rewrite string_or_id, dispatch_storage_eq, Hfresh. cbn [fst].
  assert (MyDurableObject.is_finished
            (MyDurableObject.set_amount_of_pages (requested_amount q)
               empty_storage) = false) as ->.
  { change (bool_decide (Z.of_nat (size (∅ : gset Z)) =
                           number_or (Some (requested_amount q)) 0) = false).
    rewrite number_or_Some_nonzero, size_empty by done.
    by apply bool_decide_eq_false_2. }
  change (MyDurableObject.get_finished_pages
            (MyDurableObject.set_amount_of_pages (requested_amount q) empty_storage))
    with (∅ : gset Z).
  by rewrite elements_empty.
Qed.

Lemma status_after_send_to_queue_witness :
  requested_amount (Some "0") ≠ 0 ∧
  (status (Some "doc") (send_to_queue demo_clock (Some "0") "doc" start).2).1 =
    Ok (Json false []).
Proof.
  apply (status_after_send_to_queue demo_clock (Some "0") "doc" start).
  reflexivity.
Defined.

(** ** Decimal sizes *)

Lemma digit_value_char d : 0 ≤ d ≤ 9 → digit_value (digit_char d) = Some d.
Proof.
  intros Hd.
  assert (d = 0 ∨ d = 1 ∨ d = 2 ∨ d = 3 ∨ d = 4 ∨ d = 5 ∨ d = 6 ∨ d = 7 ∨
          d = 8 ∨ d = 9) as Hc by lia.
  repeat (destruct Hc as [->|Hc]; [reflexivity|]). by subst d.
Qed.

Lemma parse_digits_decimal ds acc :
  Forall (λ d, 0 ≤ d ≤ 9) ds →
  parse_digits 10 (digits_to_string ds) acc =
    match ds with
    | [] => acc
    | _ => Some (foldl (λ a d, a * 10 + d) (default 0 acc) ds)
    end.
Proof.
  intros Hds. revert acc. induction Hds as [|d ds Hd Hds IH]; intros acc; [done|].
  cbn [digits_to_string parse_digits]. rewrite digit_value_char by done.
  destruct (Z.ltb_spec d 10) as [_|]; [|lia]. rewrite IH.
  by destruct ds.
Qed.

Ltac literal_chars :=
  repeat match goal with
    | |- context [digit_char ?k] =>
        let c := eval vm_compute in (digit_char k) in
        change (digit_char k) with c
    | H : context [digit_char ?k] |- _ =>
        let c := eval vm_compute in (digit_char k) in
        change (digit_char k) with c in H
    | |- context [is_white_space ?c] =>
        let b := eval vm_compute in (is_white_space c) in
        change (is_white_space c) with b
    end.

Ltac digit_cases d Hd :=
  let Hc := fresh "Hc" in
  assert (d = 0 ∨ d = 1 ∨ d = 2 ∨ d = 3 ∨ d = 4 ∨ d = 5 ∨ d = 6 ∨ d = 7 ∨
          d = 8 ∨ d = 9) as Hc by lia;
  clear Hd;
  repeat (destruct Hc as [Hc|Hc]); subst d.

Lemma parseInt_digits ds :
  ds ≠ [] → Forall (λ d, 0 ≤ d ≤ 9) ds →
  parseInt (digits_to_string ds) = Some (to_double (digits_value ds)).
Proof.
  intros Hne Hds. pose proof (parse_digits_decimal ds None Hds) as Hparse.
  destruct ds as [|d ds]; [done|]. clear Hne. fold (digits_value (d :: ds)) in Hparse.
  apply Forall_cons in Hds as [Hd Hds]. unfold parseInt.
  digit_cases d Hd; cbn [digits_to_string trim_start] in *; literal_chars;
    cbv iota beta; try (rewrite Hparse; do 2 f_equal; apply Z.mul_1_l).
  destruct ds as [|d2 ds].
  { cbn [digits_to_string] in *. cbv iota beta. rewrite Hparse. reflexivity. }
  apply Forall_cons in Hds as [Hd2 Hds].
  digit_cases d2 Hd2; cbn [digits_to_string] in *; literal_chars;
    cbv iota beta; rewrite Hparse; do 2 f_equal; apply Z.mul_1_l.
Qed.

Lemma to_double_exact n : Z.abs n ≤ 2 ^ 53 → to_double n = n.
Proof.
  intros Hn. unfold to_double.
  by destruct (Z.leb_spec (Z.abs n) (2 ^ 53)) as [_|]; [|lia].
Qed.

(** Past 2^53 the value is rounded to the nearest double, ties to even. *)
Lemma parseInt_rounds :
  parseInt "9007199254740993" = Some 9007199254740992 ∧
  parseInt "9007199254740995" = Some 9007199254740996 ∧
  parseInt "-9007199254740993" = Some (-9007199254740992).
Proof. by vm_compute. Qed.

Lemma digits_value_nonneg ds : Forall (λ d, 0 ≤ d ≤ 9) ds → 0 ≤ digits_value ds.
Proof.
  unfold digits_value. intros Hds.
  assert (∀ acc, 0 ≤ acc → 0 ≤ foldl (λ a d, a * 10 + d) acc ds) as Hacc.
  { induction Hds as [|d ds Hd Hds IH]; intros acc Hacc; [done|].
    simpl. apply IH. lia. }
  by apply Hacc.
Qed.

(** X13. A size written in decimal digits is read as the number it denotes:
    [parseInt] of a non-empty string of decimal digits whose value is at most
    2^53 is that value (leading zeros included, no hexadecimal reading), and
    [/send_to_queue] uses it as the job's size unless it is [0], in which
    case it uses the default 100. *)
Theorem decimal_size ds :
  ds ≠ [] → Forall (λ d, 0 ≤ d ≤ 9) ds →
  digits_value ds ≤ 2 ^ 53 →
  parseInt (digits_to_string ds) = Some (digits_value ds) ∧
  requested_amount (Some (digits_to_string ds)) =
    (if digits_value ds =? 0 then 100 else digits_value ds).
Proof.
  intros Hne Hds Hmax. pose proof (parseInt_digits ds Hne Hds) as Hp.
  rewrite to_double_exact in Hp by (pose proof (digits_value_nonneg ds Hds); lia).
  split; [done|]. unfold requested_amount.
  destruct ds as [|d ds]; [done|]. cbn [digits_to_string string_or].
  cbn [digits_to_string] in Hp. by rewrite Hp.
Qed.

Lemma decimal_size_witness :
  parseInt (digits_to_string [0; 2; 5; 0]) = Some (digits_value [0; 2; 5; 0]) ∧
  requested_amount (Some (digits_to_string [0; 2; 5; 0])) =
    (if digits_value [0; 2; 5; 0] =? 0 then 100 else digits_value [0; 2; 5; 0]).
Proof.
  apply (decimal_size [0; 2; 5; 0]).
  - discriminate.
  - repeat constructor; lia.
  - vm_compute. discriminate.
Defined.

(** ** Duplicates under sequential delivery *)

(** X14. Under sequential delivery, recording is idempotent. For every job
    state and every page, [finished_page] applied twice gives exactly the
    storage it gives applied once, so the set of finished pages does not grow
    on the second call. When one consumer processes an item and then, with
    nothing in between, a duplicate of it, the duplicate's completion check
    does not succeed, whatever the state. And when the deliveries to an
    initialized job are consumed one after the other, duplicates included,
    the terminal observation fires at most once. *)
Theorem recording_is_idempotent clock env :
  (∀ st p,
     MyDurableObject.finished_page p (MyDurableObject.finished_page p st) =
     MyDurableObject.finished_page p st) ∧
  (∀ st p,
     size (MyDurableObject.get_finished_pages
             (MyDurableObject.finished_page p
                (MyDurableObject.finished_page p st))) =
     size (MyDurableObject.get_finished_pages
             (MyDurableObject.finished_page p st))) ∧
  (∀ ex m r,
     ∃ tr1 r1 tr2 r2,
       on_message clock env ex m r = (Ok tt, r1) ∧
       history r1 = history r ++ tr1 ∧
       on_message clock env ex m r1 = (Ok tt, r2) ∧
       history r2 = history r1 ++ tr2 ∧
       count_events (observes (document_id m)) tr2 = 0%nat ∧
       count_events (terminal (document_id m)) tr2 = 0%nat ∧
       count_events (destroys (document_id m)) tr2 = 0%nat) ∧
  (∀ d N deliveries r,
     1 ≤ N →
     storage_of (world r) d = initialized N →
     ∃ tr r' n,
       consume clock env deliveries r = (Ok tt, r') ∧
       history r' = history r ++ tr ∧
       (n ≤ 1)%nat ∧
       count_events (observes d) tr = n ∧
       count_events (terminal d) tr = n ∧
       count_events (destroys d) tr = n).
Proof.
  split; [intros; apply finished_page_idem|].
  split; [intros; by rewrite finished_page_idem|].
  split; [apply on_message_twice|].
  intros d N deliveries r HN Hinit.
  destruct (consume_at_most_once clock env d N deliveries r HN Hinit)
    as (tr & r' & n & Hrun & Hh & (Ho & Ht & Hd) & Hn).
  exists tr, r', n. repeat split; assumption.
Qed.

Lemma recording_is_idempotent_witness :
  ∃ tr r' n,
    consume demo_clock demo_env
      [("a", [demo_page 0; demo_page 0; demo_page 1; demo_page 1])]
      demo_run = (Ok tt, r') ∧
    history r' = history demo_run ++ tr ∧
    (n ≤ 1)%nat ∧
    count_events (observes "doc") tr = n ∧
    count_events (terminal "doc") tr = n ∧
    count_events (destroys "doc") tr = n.
Proof.
  apply (proj2 (proj2 (proj2 (recording_is_idempotent demo_clock demo_env)))
           "doc" 2).
  - lia.
  - vm_compute. reflexivity.
Defined.

(** ** Concurrent consumers that all finish *)

Section Progress.
Variable clock : nat → Z.
Variable env : Env.

(** A step of a consumer never fails, and it uses up one of the steps that
    the consumer has left. *)
Lemma worker_step_progress wk r :
  ∃ wk' r',
    worker_step clock env wk r = (Ok wk', r') ∧
    (steps_left (pc wk') ≤ pred (steps_left (pc wk)))%nat.
Proof.
  unfold worker_step. destruct (pc wk) eqn:Hpc.
  - destruct (type (item wk)); unfold_m; simpl.
    + destruct (truthy (page (item wk))); eexists _, _; (split; [done|]);
        simpl; lia.
    + eexists _, _. split; [done|]. simpl. lia.
  - unfold_m. simpl. eexists _, _. split; [done|]. simpl. lia.
  - unfold_m. simpl.
    destruct (MyDurableObject.is_finished _); eexists _, _; (split; [done|]);
      simpl; lia.
  - unfold_m. simpl. eexists _, _. split; [done|]. simpl. lia.
  - unfold_m. simpl. eexists _, _. split; [done|]. simpl. lia.
  - unfold_m. simpl. eexists _, _. split; [done|]. rewrite Hpc. simpl. lia.
Qed.

Lemma schedule_step_progress i (ws : list Worker) r :
  ∃ ws' r',
    schedule_step clock env i ws r = (Ok ws', r') ∧
    length ws' = length ws ∧
    ∀ j wk, ws !! j = Some wk →
      ∃ wk', ws' !! j = Some wk' ∧
        (steps_left (pc wk') ≤
         steps_left (pc wk) - count_occ Nat.eq_dec [i] j)%nat.
Proof.
  unfold schedule_step. destruct (ws !! i) as [wk|] eqn:Hi.
  - destruct (worker_step_progress wk r) as (wk' & r' & Hstep & Hless).
    exists (<[i := wk']> ws), r'. unfold mbind, M_bind. rewrite Hstep.
    split; [done|]. split; [by rewrite length_insert|].
    intros j wk0 Hj. simpl. destruct (Nat.eq_dec i j) as [<-|Hne].
    + exists wk'. rewrite list_lookup_insert_eq by (by eapply lookup_lt_Some).
      split; [done|]. rewrite Hi in Hj. injection Hj as <-. lia.
    + exists wk0. rewrite list_lookup_insert_ne by done. split; [done|lia].
  - exists ws, r. split; [done|]. split; [done|].
    intros j wk Hj. exists wk. split; [done|]. simpl.
    destruct (Nat.eq_dec i j) as [<-|Hne]; [congruence|lia].
Qed.

Lemma run_schedule_progress schedule (ws : list Worker) r :
  ∃ ws' r',
    run_schedule clock env schedule ws r = (Ok ws', r') ∧
    length ws' = length ws ∧
    ∀ j wk, ws !! j = Some wk →
      ∃ wk', ws' !! j = Some wk' ∧
        (steps_left (pc wk') ≤
         steps_left (pc wk) - count_occ Nat.eq_dec schedule j)%nat.
Proof.
  revert ws r. induction schedule as [|i schedule IH]; intros ws r.
  - exists ws, r. split; [done|]. split; [done|].
    intros j wk Hj. exists wk. split; [done|]. simpl. lia.
  - destruct (schedule_step_progress i ws r)
      as (ws1 & r1 & Hstep & Hlen1 & Hpro1).
    destruct (IH ws1 r1) as (ws' & r' & Hrun & Hlen & Hpro).
    exists ws', r'. simpl. unfold mbind, M_bind. rewrite Hstep.
    split; [done|]. split; [congruence|].
    intros j wk Hj.
    destruct (Hpro1 j wk Hj) as (wk1 & Hj1 & Hless1).
    destruct (Hpro j wk1 Hj1) as (wk' & Hj' & Hless).
    exists wk'. split; [done|]. simpl in Hless1.
    destruct (Nat.eq_dec i j); lia.
Qed.

(** Under a fair schedule every consumer finishes. *)
Lemma fair_schedule_finishes schedule (ws : list Worker) r :
  fair schedule ws →
  ∃ ws' r',
    run_schedule clock env schedule ws r = (Ok ws', r') ∧
    forallb is_done ws' = true.
Proof.
  intros Hfair.
  destruct (run_schedule_progress schedule ws r)
    as (ws' & r' & Hrun & Hlen & Hpro).
  exists ws', r'. split; [done|].
  apply forallb_forall. intros wk' Hin.
  apply list_elem_of_In, list_elem_of_lookup in Hin as [j Hj].
  pose proof (lookup_lt_Some _ _ _ Hj) as Hlt. rewrite Hlen in Hlt.
  destruct (lookup_lt_is_Some_2 ws j Hlt) as [wk Hwk].
  destruct (Hpro j wk Hwk) as (wk0 & Hj0 & Hless).
  rewrite Hj in Hj0. injection Hj0 as <-.
  specialize (Hfair j Hlt).
  assert (steps_left (pc wk) ≤ 5)%nat by (destruct (pc wk); simpl; lia).
  unfold is_done. destruct (pc wk'); simpl in Hless; done || lia.
Qed.

End Progress.

(** X15. When [N] consumers handle the pages [1..N] of a freshly initialized
    job of size [N >= 1] concurrently, one page each, then under every
    interleaving of their steps that gives each of them at least five steps,
    every consumer runs to its end without an error, and at least one of them
    sees the completion. *)
Theorem fair_schedule_completes clock env d N ws schedule r :
  1 ≤ N →
  storage_of (world r) d = initialized N →
  job_workers d N ws →
  Forall (λ wk, pc wk = AtStart) ws →
  fair schedule ws →
  ∃ ws' r',
    run_schedule clock env schedule ws r = (Ok ws', r') ∧
    forallb is_done ws' = true ∧
    (1 ≤ observers ws')%nat.
Proof.
  intros HN Hinit Hjob Hstart Hfair. rewrite Forall_lookup in Hstart.
  destruct (fair_schedule_finishes clock env schedule ws r Hfair)
    as (ws' & r' & Hrun & Hdone).
  destruct (run_schedule_invariant clock env d N schedule ws r HN)
    as (ws2 & r2 & Hrun2 & _ & Hdyn).
  { split; [done|]. right. unfold undecided.
    rewrite Hinit. split; [done|]. split.
    - intros x. split; [by intros ?%not_elem_of_empty|].
      intros (i & wk & Hi & Hr & _). by rewrite (Hstart i wk Hi) in Hr.
    - destruct (lookup_lt_is_Some_2 ws 0) as [wk Hwk].
      { destruct Hjob as [Hlen _]. lia. }
      exists 0%nat, wk. split; [done|]. by rewrite (Hstart 0%nat wk Hwk). }
  rewrite Hrun in Hrun2. injection Hrun2 as <- <-.
  exists ws', r'. split; [done|]. split; [done|].
  apply observers_pos. destruct Hdyn as [Hsaw|(_ & _ & i & wk & Hi & Hw)]; [done|].
  exfalso. rewrite forallb_forall in Hdone.
  assert (is_done wk = true) as Hd.
  { apply Hdone. by apply list_elem_of_In, list_elem_of_lookup_2 with i. }
  unfold is_done in Hd. by destruct (pc wk).
Qed.

Lemma fair_schedule_completes_witness :
  ∃ ws r',
    run_schedule demo_clock demo_env [1; 0; 0; 1; 0; 1; 1; 0; 0; 1]%nat
      (workers_of "doc" 2 1000) demo_run = (Ok ws, r') ∧
    forallb is_done ws = true ∧
    (1 ≤ observers ws)%nat.
Proof.
  apply (fair_schedule_completes demo_clock demo_env "doc" 2).
  - lia.
  - vm_compute. reflexivity.
  - apply workers_of_job. lia.
  - repeat constructor.
  - intros i Hi. simpl in Hi.
    destruct i as [|[|i]]; [vm_compute; lia..|lia].
Defined.
